(** * Trace correlation and segmentation engine of dev-agent-lens

    A shallow embedding of the session reconstruction scripts

    - [scripts/compare_spans.py]            (containment / diff analyzer)
    - [scripts/src/query_traces.py]         (session-id resolver, grouping)
    - [scripts/src/reconstruct_sessions.py] (span tree, temporal segmenter)
    - [scripts/analyze_sessions.py]         (span tree of one session)

    together with the properties of these functions.  The first part of
    the file holds the definitions, one module per source file; the
    second part holds the lemmas and theorems. *)

From Stdlib Require Import ZArith QArith Ascii String DecimalString.
From stdpp Require Import base option list sorting strings gmap.

Set Warnings "-register-all".

Local Open Scope Z_scope.

(* ===================================================================== *)
(** * Part I: definitions                                                 *)
(* ===================================================================== *)

(** ** Python values and the builtins the scripts rely on *)

Module Py.

(** JSON-shaped Python values, as they come out of [json.loads]: the
    payload of a metadata cell or of one message record.  A [VDict] keeps
    its items in insertion order; Python guarantees the keys of a dict
    are pairwise distinct ([dict_wf] below).  Binary floating point
    numbers are not part of the model. *)
Inductive value : Type :=
| VNone
| VBool (b : bool)
| VInt (n : Z)
| VStr (s : string)
| VList (xs : list value)
| VDict (items : list (string * value)).

(** [isinstance(v, dict)] *)
Definition is_dict (v : value) : bool :=
  match v with VDict _ => true | _ => false end.

(** Truth value of an object in a boolean context ([if v], [not v]). *)
Definition truthy (v : value) : bool :=
  match v with
  | VNone => false
  | VBool b => b
  | VInt n => negb (n =? 0)
  | VStr s => negb (String.eqb s "")
  | VList xs => match xs with [] => false | _ => true end
  | VDict items => match items with [] => false | _ => true end
  end.

(** [d.get(k)]: the value stored under [k], [None] when the key is
    missing. *)
Fixpoint dict_get (k : string) (items : list (string * value)) : option value :=
  match items with
  | [] => None
  | (k', v) :: rest => if String.eqb k k' then Some v else dict_get k rest
  end.

(** The invariant of a Python dict: no key occurs twice. *)
Definition dict_wf (items : list (string * value)) : Prop :=
  NoDup (items.*1).

(** [repr] of a non-empty container is what [str] prints for it.  The
    scripts never look inside that text, so it is kept as a parameter of
    the development. *)
Class Repr := container_repr : value → string.

Definition str_of_Z (n : Z) : string := NilZero.string_of_int (Z.to_int n).

(** [str(v)] *)
Definition str `{Repr} (v : value) : string :=
  match v with
  | VNone => "None"
  | VBool true => "True"
  | VBool false => "False"
  | VInt n => str_of_Z n
  | VStr s => s
  | VList [] => "[]"
  | VDict [] => "{}"
  | _ => container_repr v
  end.

(** *** String primitives: [sep in s], [s.split(sep)] *)

(** [strip_prefix p s] is [Some r] exactly when [s = p ++ r]. *)
Fixpoint strip_prefix (p s : string) : option string :=
  match p, s with
  | EmptyString, _ => Some s
  | String _ _, EmptyString => None
  | String a p', String b s' =>
      if Ascii.eqb a b then strip_prefix p' s' else None
  end.

(** [sub in s] *)
Fixpoint contains (sub s : string) : bool :=
  match strip_prefix sub s with
  | Some _ => true
  | None => match s with
            | EmptyString => false
            | String _ s' => contains sub s'
            end
  end.

(** [s.split(sep)] for a non-empty separator: scan from the left, cut at
    every occurrence found, continue behind it.  [cur] collects, in
    reverse, the characters of the piece under construction; [fuel]
    bounds the number of scan steps and [length s] is always enough. *)
Fixpoint split_from (fuel : nat) (sep cur s : string) : list string :=
  match fuel with
  | O => [String.rev cur +:+ s]
  | S fuel' =>
      match s with
      | EmptyString => [String.rev cur]
      | String c s' =>
          match strip_prefix sep s with
          | Some rest => String.rev cur :: split_from fuel' sep "" rest
          | None => split_from fuel' sep (String c cur) s'
          end
      end
  end.

Definition split (sep s : string) : list string :=
  split_from (String.length s) sep "" s.

(** [l[-1]] on a list of strings that is never empty here. *)
Definition last_piece (l : list string) : string := List.last l "".

(** [r] is what follows the last occurrence of [sep] in [s]. *)
Definition after_last (sep s r : string) : Prop :=
  ∃ pre, s = pre +:+ sep +:+ r
         ∧ ∀ pre' r', s = pre' +:+ sep +:+ r' →
                      (String.length pre' ≤ String.length pre)%nat.

(** A separator that does not overlap a shifted copy of itself: behind an
    occurrence at the start of a string, the next one lies entirely after
    it. *)
Definition unbordered (sep : string) : Prop :=
  ∀ rest pre r, sep +:+ rest = pre +:+ sep +:+ r →
                pre = "" ∨ (String.length sep ≤ String.length pre)%nat.

(** *** [json.dumps(v, sort_keys=True)] *)

Definition quote : string := String "034" "".

Definition hex_digit (n : N) : ascii :=
  match String.get (N.to_nat n) "0123456789abcdef" with
  | Some c => c
  | None => "0"%char
  end.

(** One character of a JSON string literal with [ensure_ascii=True]:
    the two-character escapes, and a [\u00XX] escape for everything
    outside the printable range [' ' .. '~']. *)
Definition json_escape_char (c : ascii) : string :=
  let n := N_of_ascii c in
  if (n =? 34)%N then "\" +:+ quote
  else if (n =? 92)%N then "\\"
  else if (n =? 10)%N then "\n"
  else if (n =? 13)%N then "\r"
  else if (n =? 9)%N then "\t"
  else if (n =? 8)%N then "\b"
  else if (n =? 12)%N then "\f"
  else if ((32 <=? n) && (n <=? 126))%N then String c ""
  else "\u00" +:+ String (hex_digit (n / 16)) (String (hex_digit (n mod 16)) "").

Fixpoint json_escape (s : string) : string :=
  match s with
  | EmptyString => ""
  | String c s' => json_escape_char c +:+ json_escape s'
  end.

Definition json_string (s : string) : string :=
  quote +:+ json_escape s +:+ quote.

(** [sep.join(l)] *)
Fixpoint join (sep : string) (l : list string) : string :=
  match l with
  | [] => ""
  | [x] => x
  | x :: rest => x +:+ sep +:+ join sep rest
  end.

(** Order of two items under [sort_keys]: by key, code point by code
    point. *)
Definition key_le {V} (a b : string * V) : Prop := String.le a.1 b.1.

Global Instance key_le_dec {V} : RelDecision (@key_le V).
Proof. intros a b. unfold key_le. apply _. Defined.

Definition sort_items {V} (l : list (string * V)) : list (string * V) :=
  merge_sort key_le l.

Definition json_item (kv : string * string) : string :=
  json_string kv.1 +:+ ": " +:+ kv.2.

(** The encoder walks the items of a dict in key order; each value is
    encoded by the recursive call.  Encoding is pure, so the values are
    encoded first and the encoded items sorted afterwards. *)
Fixpoint json_dumps (v : value) : string :=
  match v with
  | VNone => "null"
  | VBool true => "true"
  | VBool false => "false"
  | VInt n => str_of_Z n
  | VStr s => json_string s
  | VList xs => "[" +:+ join ", " (map json_dumps xs) +:+ "]"
  | VDict items =>
      "{" +:+ join ", "
               (map json_item
                  (sort_items (map (λ kv, (kv.1, json_dumps kv.2)) items)))
          +:+ "}"
  end.

(** A rendering of containers used to instantiate the closed examples of
    this file; none of them prints a container. *)
Definition sample_repr : Repr := λ _, "<container>".

End Py.

(** ** [scripts/compare_spans.py] *)

Module CompareSpans.
Import Py.

Section Analyzer.
Context `{Repr}.

(** [json.dumps(m, sort_keys=True) if isinstance(m, dict) else str(m)] *)
Definition canonical (m : value) : string :=
  if is_dict m then json_dumps m else str m.

(** The comprehension over [(msgs or [])]: a missing list counts as
    empty. *)
Definition canonical_list (msgs : option (list value)) : list string :=
  canonical <$> default [] msgs.

(** [len(a) / len(b) * 100], kept as an exact rational; Python rounds
    the quotient and the product to binary64. *)
Definition percentage (a b : nat) : Q :=
  (Z.of_nat a # Pos.of_nat b) * 100.

Record comparison : Type := {
  total_previous : nat;
  total_current : nat;
  duplicated_count : nat;
  new_count : nat;
  overlap_percentage : Q;
  duplicated_messages : list string;
  new_messages : list string
}.

Definition compare_messages (msg1 msg2 : option (list value)) : comparison :=
  let msg1_str := canonical_list msg1 in
  let msg2_str := canonical_list msg2 in
  let duplicates := filter (λ m, m ∈ msg2_str) msg1_str in
  let new_msgs := filter (λ m, m ∉ msg1_str) msg2_str in
  let overlap_pct :=
    match msg2_str with
    | [] => 0%Q
    | _ => percentage (length duplicates) (length msg2_str)
    end in
  {| total_previous := length msg1_str;
     total_current := length msg2_str;
     duplicated_count := length duplicates;
     new_count := length new_msgs;
     overlap_percentage := overlap_pct;
     duplicated_messages := duplicates;
     new_messages := new_msgs |}.

Record containment : Type := {
  is_complete_subset : bool;
  total_earlier : nat;
  contained_count : nat;
  missing_count : nat;
  containment_percentage : Q;
  missing_messages : list string
}.

Definition check_complete_containment
    (earlier_msgs later_msgs : option (list value)) : containment :=
  let earlier_str := canonical_list earlier_msgs in
  let later_str := canonical_list later_msgs in
  let contained := filter (λ m, m ∈ later_str) earlier_str in
  let missing := filter (λ m, m ∉ later_str) earlier_str in
  {| is_complete_subset :=
       (length missing =? 0)%nat && (0 <? length earlier_str)%nat;
     total_earlier := length earlier_str;
     contained_count := length contained;
     missing_count := length missing;
     containment_percentage :=
       match earlier_str with
       | [] => 0%Q
       | _ => percentage (length contained) (length earlier_str)
       end;
     missing_messages := missing |}.

End Analyzer.

(** Two records with the same items in a different field order. *)
Definition reordered (a b : value) : Prop :=
  a = b ∨ ∃ d1 d2, a = VDict d1 ∧ b = VDict d2 ∧ dict_wf d1 ∧ d1 ≡ₚ d2.

End CompareSpans.

(** ** Rows of the span frame *)

Module Trace.
Import Py.

(** A cell of a column that the frame may lack altogether. *)
Inductive cell (A : Type) : Type :=
| Missing            (* the frame has no such column *)
| NA                 (* the column is there, the value is null (NaN/None) *)
| Val (a : A).
Global Arguments Missing {A}.
Global Arguments NA {A}.
Global Arguments Val {A} a.

(** One row of the span frame.  Timestamps are integers in milliseconds,
    the unit [load_trace_data] reads them in; [None] is a null cell
    ([NaN], [NaT] or [None]). *)
Record span : Type := {
  span_id : string;                 (* context.span_id *)
  trace_id : cell string;           (* context.trace_id *)
  parent_id : option string;        (* parent_id *)
  start_time : option Z;            (* start_time *)
  end_time : option Z;              (* end_time *)
  name : string;                    (* name *)
  kind : string;                    (* attributes.openinference.span.kind *)
  metadata : option value           (* attributes.metadata *)
}.

Global Instance value_eq_dec : EqDecision value.
Proof.
  refine (fix go (x y : value) {struct x} : Decision (x = y) :=
    let list_go := fix list_go (l k : list value) {struct l} : Decision (l = k) :=
      match l, k with
      | [], [] => left eq_refl
      | a :: l', b :: k' =>
          cast_if_and (go a b) (list_go l' k')
      | _, _ => right _
      end in
    let items_go := fix items_go (l k : list (string * value)) {struct l}
        : Decision (l = k) :=
      match l, k with
      | [], [] => left eq_refl
      | (s, a) :: l', (t, b) :: k' =>
          cast_if_and3 (decide (s = t)) (go a b) (items_go l' k')
      | _, _ => right _
      end in
    match x, y with
    | VNone, VNone => left eq_refl
    | VBool a, VBool b => cast_if (decide (a = b))
    | VInt a, VInt b => cast_if (decide (a = b))
    | VStr a, VStr b => cast_if (decide (a = b))
    | VList a, VList b => cast_if (list_go a b)
    | VDict a, VDict b => cast_if (items_go a b)
    | _, _ => right _
    end); try congruence.
  Unshelve. all: congruence.
Defined.

Global Instance cell_eq_dec `{EqDecision A} : EqDecision (cell A).
Proof. solve_decision. Defined.

Global Instance span_eq_dec : EqDecision span.
Proof. solve_decision. Defined.

End Trace.

(** ** [scripts/src/query_traces.py] *)

Module QueryTraces.
Import Py Trace.

Section Resolver.
Context `{Repr}.

(** One lookup step of the resolver:
    [if user_id and 'session_' in str(user_id):
       return str(user_id).split('session_')[-1]].
    [None] means that the step falls through. *)
Definition session_suffix (user_id : option value) : option string :=
  match user_id with
  | Some v =>
      if truthy v && contains "session_" (str v)
      then Some (last_piece (split "session_" (str v)))
      else None
  | None => None
  end.

(** [row.get('context.trace_id', 'unknown')] *)
Definition trace_id_or_unknown (row : span) : option string :=
  match trace_id row with
  | Missing => Some "unknown"
  | NA => None
  | Val t => Some t
  end.

(** [req_meta = metadata.get('requester_metadata', {})] followed by the
    guarded lookup of [user_id] in it. *)
Definition requester_user_id (items : list (string * value)) : option value :=
  match dict_get "requester_metadata" items with
  | None => None
  | Some (VDict req_meta) => dict_get "user_id" req_meta
  | Some _ => None
  end.

(** The session id of a row; [None] is a null result (the trace id cell
    is null and nothing else matched). *)
Definition extract_session_id (row : span) : option string :=
  match metadata row with
  | Some (VDict items) =>
      if negb (truthy (VDict items)) then trace_id_or_unknown row
      else
        match session_suffix (dict_get "user_id" items) with
        | Some sid => Some sid
        | None =>
            match session_suffix (dict_get "user_api_key_end_user_id" items) with
            | Some sid => Some sid
            | None =>
                match session_suffix (requester_user_id items) with
                | Some sid => Some sid
                | None => trace_id_or_unknown row
                end
            end
        end
  | _ => trace_id_or_unknown row
  end.

(** [df.groupby('session_id')]: one group per distinct non-null key, keys
    in sorted order, the rows of a group in frame order. *)
Definition groupby (key : span → option string) (df : list span)
    : list (string * list span) :=
  (λ k, (k, filter (λ row, key row = Some k) df))
    <$> merge_sort String.le (remove_dups (omap key df)).

(** The dict built by the loop over the groups.  The keys the loop sees
    are strings, so its [pd.notna] test holds and [str] leaves them as
    they are. *)
Definition group_by_session (df : list span) : gmap string (list span) :=
  match df with
  | [] => ∅
  | _ => foldl (λ grouped g, <[g.1 := g.2]> grouped) ∅
               (groupby extract_session_id df)
  end.

(** The id found in the metadata alone, by the first lookup step that
    matches; [None] when no step matches. *)
Definition resolve (row : span) : option string :=
  match metadata row with
  | Some (VDict items) =>
      match session_suffix (dict_get "user_id" items) with
      | Some sid => Some sid
      | None =>
          match session_suffix (dict_get "user_api_key_end_user_id" items) with
          | Some sid => Some sid
          | None => session_suffix (requester_user_id items)
          end
      end
  | _ => None
  end.

End Resolver.

(** The two numbers in the headline of [print_results] and of
    [export_results]: [sum(len(traces) for traces in grouped.values())]
    and [len(grouped)].  [None] is the early return on an empty dict. *)
Definition session_totals (grouped : gmap string (list span))
    : option (nat * nat) :=
  if decide (grouped = ∅) then None
  else Some (sum_list (length <$> (map_to_list grouped).*2), size grouped).

(** [query_by_session_id] on the frame the client fetched; [None] is a
    client call that raised, answered with an empty frame.  A frame
    without trace id column has no row that passes the filter. *)
Definition query_by_session_id (fetched : option (list span))
    (session_id : string) : list span :=
  match fetched with
  | None => []
  | Some [] => []
  | Some df => filter (λ row, trace_id row = Val session_id) df
  end.

End QueryTraces.

(** ** [scripts/src/reconstruct_sessions.py] *)

Module ReconstructSessions.
Import Py Trace.

(** *** The resolver of this script *)

Inductive outcome : Type :=
| Returns (r : option string)
| Raises.

(** [if user_id and 'session_' in user_id: return user_id.split(..)[-1]]
    without the [str] coercion of the other script: [in] on a number is a
    [TypeError]; on a list or a dict it tests membership, and [split] then
    fails on it.  [None] means that the step falls through. *)
Definition session_suffix (user_id : option value) : option outcome :=
  match user_id with
  | None => None
  | Some v =>
      if negb (truthy v) then None
      else match v with
           | VStr s =>
               if contains "session_" s
               then Some (Returns (Some (last_piece (split "session_" s))))
               else None
           | VList xs =>
               if bool_decide (VStr "session_" ∈ xs) then Some Raises else None
           | VDict items =>
               if bool_decide ("session_" ∈ items.*1) then Some Raises else None
           | _ => Some Raises
           end
  end.

(** The truth value of an empty numpy array is left to the installed
    numpy: [False] (with a warning) before version 2.2, a [ValueError]
    from 2.2 on. *)
Class Numpy : Type := { empty_array_raises : bool }.

Definition numpy_before_2_2 : Numpy := {| empty_array_raises := false |}.
Definition numpy_from_2_2 : Numpy := {| empty_array_raises := true |}.

Fixpoint common_prefix (a b : list nat) : list nat :=
  match a, b with
  | x :: a', y :: b' => if decide (x = y) then x :: common_prefix a' b' else []
  | _, _ => []
  end.

(** The shape of [np.asarray(obj, dtype=object)], the array [pd.isna]
    tests for a list: the length of the list, then the dimensions on
    which all its elements agree.  Only lists count as sequences;
    strings and dicts are elements.  The bound numpy puts on the number
    of dimensions is left out. *)
Fixpoint asarray_shape (v : value) : list nat :=
  match v with
  | VList xs =>
      length xs ::
        match map asarray_shape xs with
        | [] => []
        | shape :: shapes => foldl common_prefix shape shapes
        end
  | _ => []
  end.

(** [array.size] *)
Definition array_size (v : value) : nat := foldr Nat.mul 1%nat (asarray_shape v).

(** [pd.isna(metadata) or not isinstance(metadata, dict)]: on a list
    [pd.isna] yields an array of booleans; its truth value is that of
    its element when it has one and ambiguous (a [ValueError]) when it
    has more; what is not a dict returns [None]. *)
Definition extract_session_id `{Numpy} (metadata : option value) : outcome :=
  match metadata with
  | None => Returns None
  | Some (VDict items) =>
      match session_suffix (dict_get "user_api_key_end_user_id" items) with
      | Some o => o
      | None =>
          match dict_get "requester_metadata" items with
          | Some (VDict req_meta) =>
              match session_suffix (dict_get "user_id" req_meta) with
              | Some o => o
              | None => Returns None
              end
          | _ => Returns None
          end
      end
  | Some (VList xs) =>
      match array_size (VList xs) with
      | O => if empty_array_raises then Raises else Returns None
      | S O => Returns None
      | S (S _) => Raises
      end
  | Some _ => Returns None
  end.

(** The values for which the two resolvers take the same path: what is
    missing or counts as false, and text. *)
Definition textual (user_id : option value) : Prop :=
  match user_id with
  | None => True
  | Some v => truthy v = false ∨ ∃ s, v = VStr s
  end.

(** *** The span tree *)

(** [sort_values('start_time')]: ascending, null start times last. *)
Definition start_le (a b : span) : Prop :=
  match start_time a, start_time b with
  | Some x, Some y => x ≤ y
  | _, None => True
  | None, Some _ => False
  end.

Global Instance start_le_dec : RelDecision start_le.
Proof.
  intros a b. unfold start_le.
  destruct (start_time a), (start_time b); apply _.
Defined.

Definition sort_values (df : list span) : list span := merge_sort start_le df.

(** One line of the printed hierarchy.  The text of a line shows the
    name, kind, shortened id and duration of [line_span] behind
    [line_indent] levels of indentation. *)
Record line : Type := {
  line_indent : nat;
  line_span : span
}.

(** The loop over the children of one node: a line for the child, then
    the lines of its subtree. *)
Fixpoint for_children (subtree : string → nat → option (list line))
    (indent : nat) (children : list span) : option (list line) :=
  match children with
  | [] => Some []
  | child :: rest =>
      child_lines ← subtree (span_id child) (S indent);
      more ← for_children subtree indent rest;
      Some ({| line_indent := indent; line_span := child |}
              :: child_lines ++ more)
  end.

(** [build_span_tree(df, root_span_id, indent)].  [fuel] bounds the depth
    of the recursion; [None] is a recursion that did not bottom out
    within it. *)
Fixpoint build_span_tree (fuel : nat) (df : list span)
    (root_span_id : string) (indent : nat) : option (list line) :=
  match fuel with
  | O => None
  | S fuel' =>
      let children :=
        sort_values (filter (λ s, parent_id s = Some root_span_id) df) in
      for_children (build_span_tree fuel' df) indent children
  end.

(** The hierarchy printed for one trace by [reconstruct_by_trace_id]: for
    every row with a null [parent_id], its [ROOT] line and below it the
    lines of [build_span_tree(trace_df, root_id, 1)]. *)
Fixpoint for_roots (subtree : string → nat → option (list line))
    (roots : list span) : option (list line) :=
  match roots with
  | [] => Some []
  | root :: rest =>
      tree_lines ← subtree (span_id root) 1%nat;
      more ← for_roots subtree rest;
      Some ({| line_indent := 0; line_span := root |} :: tree_lines ++ more)
  end.

Definition span_hierarchy (fuel : nat) (trace_df : list span)
    : option (list line) :=
  let roots := filter (λ s, parent_id s = None) trace_df in
  for_roots (build_span_tree fuel trace_df) roots.

(** [rooted df s n]: following [parent_id] upwards from [s] inside [df]
    ends, after [n] steps, at a row whose [parent_id] is null. *)
Inductive rooted (df : list span) : span → nat → Prop :=
| rooted_root s :
    s ∈ df → parent_id s = None → rooted df s 0
| rooted_child s p n :
    s ∈ df → parent_id s = Some (span_id p) → rooted df p n →
    rooted df s (S n).

(** [reaches df s a]: [a] is [s] or one of the rows met when following
    [parent_id] upwards from [s] inside [df]. *)
Inductive reaches (df : list span) : span → span → Prop :=
| reaches_refl s : reaches df s s
| reaches_step s p a :
    s ∈ df → p ∈ df → parent_id s = Some (span_id p) → reaches df p a →
    reaches df s a.

(** [descends df x s]: [x] is met at least one step above [s].  A row
    that descends from itself lies on a cycle of parent references; a row
    that is its own parent is the shortest case. *)
Definition descends (df : list span) (x s : span) : Prop :=
  ∃ p, s ∈ df ∧ p ∈ df ∧ parent_id s = Some (span_id p) ∧ reaches df p x.

(** The rows shown by a list of lines. *)
Definition spans_of (lines : list line) : list span := line_span <$> lines.

(** What the lines printed below a row [c] must satisfy: no row twice,
    every line shows a descendant of [c] at the indentation of its
    depth, and every descendant of [c] is shown. *)
Definition subtree_of (df : list span) (c : span) (sub : list line) : Prop :=
  NoDup (spans_of sub)
  ∧ (∀ l, l ∈ sub →
       rooted df (line_span l) (line_indent l) ∧ descends df c (line_span l))
  ∧ (∀ s, descends df c s → s ∈ spans_of sub).

(** What a printed hierarchy of [df] must satisfy: no row is shown
    twice, every line shows a row whose chain of parent references ends
    at a null parent, at the indentation of its depth, every such row is
    shown, and no row lying on a cycle of parent references is. *)
Definition forest_of (df : list span) (lines : list line) : Prop :=
  NoDup (spans_of lines)
  ∧ (∀ l, l ∈ lines → rooted df (line_span l) (line_indent l))
  ∧ (∀ s n, rooted df s n → s ∈ spans_of lines)
  ∧ (∀ s, descends df s s → s ∉ spans_of lines).

(** *** The temporal segmenter *)

(** [timedelta.total_seconds()], exact. *)
Definition total_seconds (ms : Z) : Q := ms # 1000.

(** [(start_time - last_end_time).total_seconds()]: a null operand makes
    the difference [NaT] and the gap [nan]. *)
Definition gap_seconds (start last_end : option Z) : option Q :=
  match start, last_end with
  | Some s, Some e => Some (total_seconds (s - e))
  | _, _ => None
  end.

(** [gap > gap_threshold_seconds]; every comparison with [nan] is
    false. *)
Definition exceeds (gap : option Q) (threshold : Z) : bool :=
  match gap with
  | Some g => negb (Qle_bool g (inject_Z threshold))
  | None => false
  end.

(** The loop state: the segments closed so far, the rows of the open
    one, and [last_end_time] ([None] before the first row). *)
Record scan : Type := {
  conversations : list (list span);
  current_conversation : list span;
  last_end_time : option (option Z)
}.

Definition close_current (st : scan) : list (list span) :=
  match current_conversation st with
  | [] => conversations st
  | cur => conversations st ++ [cur]
  end.

(** One iteration of the loop. *)
Definition scan_row (threshold : Z) (st : scan) (row : span) : scan :=
  let last := Some (end_time row) in
  match last_end_time st with
  | None =>
      {| conversations := conversations st;
         current_conversation := current_conversation st ++ [row];
         last_end_time := last |}
  | Some last_end =>
      if exceeds (gap_seconds (start_time row) last_end) threshold
      then {| conversations := close_current st;
              current_conversation := [row];
              last_end_time := last |}
      else {| conversations := conversations st;
              current_conversation := current_conversation st ++ [row];
              last_end_time := last |}
  end.

Definition scan_start : scan :=
  {| conversations := []; current_conversation := []; last_end_time := None |}.

(** The loop on the rows of a frame that has the columns [start_time]
    and [end_time]. *)
Definition detect_conversation_boundaries (df : list span)
    (gap_threshold_seconds : Z) : list (list span) :=
  close_current (foldl (scan_row gap_threshold_seconds) scan_start df).

(** A frame as the function receives it: its rows, and whether it has
    the columns [start_time] and [end_time] ([load_trace_data] converts
    either column only when the file has it).  The fields the rows hold
    for a column the frame does not have are not read. *)
Record frame : Type := {
  frame_rows : list span;
  has_start_time : bool;
  has_end_time : bool
}.

(** What a call gives: the list of conversations, or the [KeyError] of
    [row['start_time']] or [row['end_time']]. *)
Inductive segmented : Type :=
| Conversations (convs : list (list span))
| KeyError (column : string).

(** One iteration of the loop on a frame: [row['start_time']] is read
    first, [row['end_time']] last. *)
Definition scan_row_frame (df : frame) (threshold : Z) (st : scan) (row : span)
    : string + scan :=
  if negb (has_start_time df) then inl "start_time"
  else if negb (has_end_time df) then inl "end_time"
  else inr (scan_row threshold st row).

Fixpoint scan_frame (df : frame) (threshold : Z) (st : scan) (rows : list span)
    : string + scan :=
  match rows with
  | [] => inr st
  | row :: rest =>
      match scan_row_frame df threshold st row with
      | inl column => inl column
      | inr st' => scan_frame df threshold st' rest
      end
  end.

(** [detect_conversation_boundaries] on any frame. *)
Definition detect_conversation_boundaries_frame (df : frame)
    (gap_threshold_seconds : Z) : segmented :=
  match scan_frame df gap_threshold_seconds scan_start (frame_rows df) with
  | inl column => KeyError column
  | inr st => Conversations (close_current st)
  end.

(** A frame whose rows all carry their timestamps, each row starting
    exactly [seconds] seconds after the end of the row before it. *)
Fixpoint evenly_spaced (seconds : Z) (df : list span) : Prop :=
  match df with
  | a :: (b :: _) as rest =>
      (∃ e s, end_time a = Some e ∧ start_time b = Some s
              ∧ s - e = 1000 * seconds)
      ∧ evenly_spaced seconds rest
  | _ => True
  end.

(** *** Time ranges and the frames of the traces *)

(** [column.min()] on a column of timestamps: the least value that is
    not null, null when there is none. *)
Fixpoint min_time (column : list (option Z)) : option Z :=
  match column with
  | [] => None
  | t :: rest =>
      match t, min_time rest with
      | Some x, Some y => Some (Z.min x y)
      | Some x, None => Some x
      | None, m => m
      end
  end.

(** [column.max()] *)
Fixpoint max_time (column : list (option Z)) : option Z :=
  match column with
  | [] => None
  | t :: rest =>
      match t, max_time rest with
      | Some x, Some y => Some (Z.max x y)
      | Some x, None => Some x
      | None, m => m
      end
  end.

(** [(end - start).total_seconds() if pd.notna(start) and pd.notna(end)
    else 0] *)
Definition duration_seconds (start stop : option Z) : Q :=
  match start, stop with
  | Some s, Some e => total_seconds (e - s)
  | _, _ => 0%Q
  end.

(** The duration printed for the frame of a trace and for a
    conversation: from the least start time to the greatest end time. *)
Definition frame_duration (df : list span) : Q :=
  duration_seconds (min_time (start_time <$> df)) (max_time (end_time <$> df)).

(** [column.unique()]: the distinct values in the order of their first
    appearance; null is one of the values. *)
Fixpoint unique {A} `{EqDecision A} (l : list A) : list A :=
  match l with
  | [] => []
  | x :: rest => x :: filter (λ y, y ≠ x) (unique rest)
  end.

(** [l[:limit]] *)
Definition slice_to {A} (l : list A) (limit : Z) : list A :=
  if 0 <=? limit then take (Z.to_nat limit) l
  else take (length l - Z.to_nat (- limit)) l.

(** [df['context.trace_id']]: a frame without the column raises. *)
Definition trace_id_cell (row : span) : option (option string) :=
  match trace_id row with
  | Missing => None
  | NA => Some None
  | Val t => Some (Some t)
  end.

(** The frames [reconstruct_by_trace_id] works on: for each of the first
    [limit] distinct trace ids the rows of that trace, sorted by start
    time.  [None] is a run that raises before all of them are built: on
    reading the column, or on shortening a null trace id for its
    heading. *)
Definition trace_frames (df : list span) (limit : Z)
    : option (list (string * list span)) :=
  ids ← mapM trace_id_cell df;
  mapM (λ id : option string,
          t ← id;
          Some (t, sort_values (filter (λ row, trace_id row = Val t) df)))
       (slice_to (unique ids) limit).

(** [breaks threshold prev row]: the test of the loop for [row] when
    [prev] is the row before it. *)
Definition breaks (threshold : Z) (prev row : span) : bool :=
  exceeds (gap_seconds (start_time row) (end_time prev)) threshold.

(** No two neighbours inside the segment are separated by the test. *)
Fixpoint unbroken (threshold : Z) (seg : list span) : Prop :=
  match seg with
  | a :: (b :: _) as rest => breaks threshold a b = false ∧ unbroken threshold rest
  | _ => True
  end.

(** Every segment is separated from the next one by the test, applied
    to the last row of the one and the first row of the other. *)
Fixpoint separated (threshold : Z) (segs : list (list span)) : Prop :=
  match segs with
  | s1 :: (s2 :: _) as rest =>
      (∃ a b, last s1 = Some a ∧ head s2 = Some b ∧ breaks threshold a b = true)
      ∧ separated threshold rest
  | _ => True
  end.

(** The number of neighbours in the frame that the test separates. *)
Fixpoint count_breaks (threshold : Z) (df : list span) : nat :=
  match df with
  | a :: (b :: _) as rest =>
      ((if breaks threshold a b then 1 else 0) + count_breaks threshold rest)%nat
  | _ => 0%nat
  end.

(** What the loop has established after the rows of [seen]. *)
Record scanned (threshold : Z) (seen : list span) (st : scan) : Prop := {
  scanned_concat : concat (conversations st) ++ current_conversation st = seen;
  scanned_nonempty : Forall (λ seg, seg ≠ []) (conversations st);
  scanned_current : seen ≠ [] → current_conversation st ≠ [];
  scanned_last : last_end_time st = end_time <$> last seen;
  scanned_unbroken :
    Forall (unbroken threshold) (conversations st)
    ∧ unbroken threshold (current_conversation st);
  scanned_separated : separated threshold (close_current st);
  scanned_count :
    length (close_current st)
    = (count_breaks threshold seen + match seen with [] => 0 | _ => 1 end)%nat
}.

End ReconstructSessions.

(** ** [scripts/analyze_sessions.py] *)

Module AnalyzeSessions.
Import Py Trace ReconstructSessions.

(** [print_tree(parent_id, indent)] over [session_df], as the list of
    the lines it prints: the same walk as [build_span_tree], with the
    same loop over the sorted children.  The argument [parent] is the
    [parent_id] of the source. *)
Fixpoint print_tree (fuel : nat) (session_df : list span)
    (parent : string) (indent : nat) : option (list line) :=
  match fuel with
  | O => None
  | S fuel' =>
      let children := filter (λ s, parent_id s = Some parent) session_df in
      for_children (print_tree fuel' session_df) indent (sort_values children)
  end.

(** The tree printed for a session: the rows with a null [parent_id] in
    start order, each followed by [print_tree(root_id, 1)]. *)
Definition span_tree (fuel : nat) (session_df : list span)
    : option (list line) :=
  let roots := filter (λ s, parent_id s = None) session_df in
  for_roots (print_tree fuel session_df) (sort_values roots).

End AnalyzeSessions.

(** ** [common_utils.py] *)

Module CommonUtils.
Import Py.

(** [s.startswith(prefix)] *)
Definition startswith (prefix s : string) : bool :=
  match strip_prefix prefix s with
  | Some _ => true
  | None => false
  end.

(** [s.replace(old, new)] for a non-empty [old]: every occurrence found
    when scanning from the left is replaced, the scan going on behind
    it.  [fuel] bounds the scan steps; [length s] is enough. *)
Fixpoint replace_from (fuel : nat) (old new s : string) : string :=
  match fuel with
  | O => s
  | S fuel' =>
      match s with
      | EmptyString => ""
      | String c s' =>
          match strip_prefix old s with
          | Some rest => new +:+ replace_from fuel' old new rest
          | None => String c (replace_from fuel' old new s')
          end
      end
  end.

Definition replace (old new s : string) : string :=
  replace_from (String.length s) old new s.

(** Truth value of a string. *)
Definition nonempty (s : string) : bool := negb (String.eqb s "").

(** Truth value of an optional string ([None] and [''] are false). *)
Definition given (o : option string) : bool :=
  match o with
  | Some s => nonempty s
  | None => false
  end.

(** [AnthropicModelInfo.detect_oauth_token] *)
Definition detect_oauth_token (auth_header : string) : bool :=
  if negb (startswith "Bearer " auth_header) then false
  else startswith "sk-ant-oat" (replace "Bearer " "" auth_header).

(** What [validate_environment] and [extract_oauth_from_request] read
    from [litellm_params]: the truth value of the entry
    [oauth_pass_through], the entry [oauth_token], the headers under
    [proxy_server_request] and the attribute [raw_headers] of
    [secret_fields]. *)
Record litellm_params : Type := {
  oauth_pass_through : bool;
  oauth_token : option string;
  proxy_server_request_headers : option (gmap string string);
  secret_fields_raw_headers : option (gmap string string)
}.

(** [request_headers.get("authorization")
     or request_headers.get("Authorization", "")] *)
Definition authorization_header (request_headers : gmap string string) : string :=
  if given (request_headers !! "authorization")
  then default "" (request_headers !! "authorization")
  else default "" (request_headers !! "Authorization").

(** [AnthropicModelInfo.extract_oauth_from_request] *)
Definition extract_oauth_from_request (request_headers : gmap string string)
    (params : litellm_params) : option string :=
  if negb (oauth_pass_through params) then None
  else
    let auth_header := authorization_header request_headers in
    if detect_oauth_token auth_header
    then Some (replace "Bearer " "" auth_header)
    else None.

(** [_get_user_anthropic_beta_headers] *)
Definition get_user_anthropic_beta_headers (anthropic_beta_header : option string)
    : option (list string) :=
  match anthropic_beta_header with
  | None => None
  | Some h => Some (split "," h)
  end.

(** The order in which [",".join(betas)] walks the set [betas]; Python
    leaves it open. *)
Class BetaOrder := {
  beta_order : gset string → list string;
  beta_order_elements betas : beta_order betas ≡ₚ elements betas
}.

(** The boolean arguments of [get_anthropic_headers]. *)
Record flags : Type := {
  computer_tool_used : bool;
  prompt_caching_set : bool;
  pdf_used : bool;
  file_id_used : bool;
  mcp_server_used : bool;
  is_vertex_request : bool
}.

Definition oauth_betas : gset string :=
  {[ "oauth-2025-04-20"; "claude-code-20250219";
     "interleaved-thinking-2025-05-14";
     "fine-grained-tool-streaming-2025-05-14" ]}.

(** The set [betas] at the end of [get_anthropic_headers]. *)
Definition beta_set (f : flags) (user_anthropic_beta_headers : option (list string))
    (oauth_token : option string) : gset string :=
  (if prompt_caching_set f then {[ "prompt-caching-2024-07-31" ]} else ∅)
  ∪ (if computer_tool_used f then {[ "computer-use-2024-10-22" ]} else ∅)
  ∪ (if file_id_used f
     then {[ "files-api-2025-04-14"; "code-execution-2025-05-22" ]} else ∅)
  ∪ (if mcp_server_used f then {[ "mcp-client-2025-04-04" ]} else ∅)
  ∪ (if given oauth_token then oauth_betas else ∅)
  ∪ list_to_set (default [] user_anthropic_beta_headers).

(** [AnthropicModelInfo.get_anthropic_headers] *)
Definition get_anthropic_headers `{BetaOrder} (api_key : string)
    (anthropic_version : option string) (f : flags)
    (user_anthropic_beta_headers : option (list string))
    (oauth_token : option string) : gmap string string :=
  let betas := beta_set f user_anthropic_beta_headers oauth_token in
  let headers : gmap string string :=
    {[ "anthropic-version" :=
         (if given anthropic_version then default "" anthropic_version
          else "2023-06-01");
       "accept" := "application/json";
       "content-type" := "application/json" ]} in
  let headers :=
    if given oauth_token
    then <["authorization" := "Bearer " +:+ default "" oauth_token]> headers
    else <["x-api-key" := api_key]> headers in
  if is_vertex_request f then headers
  else if decide (betas = ∅) then headers
  else <["anthropic-beta" := join "," (beta_order betas)]> headers.

Inductive validated : Type :=
| AuthenticationError
| Headers (headers : gmap string string).

(** The credentials [validate_environment] settles on: the OAuth token
    and the api key left after its four methods. *)
Definition credentials (headers : gmap string string) (params : litellm_params)
    (api_key : option string) : option string * option string :=
  if given api_key && startswith "sk-ant-oat" (default "" api_key)
  then (api_key, None)
  else if oauth_pass_through params && given (oauth_token params)
  then (oauth_token params, api_key)
  else if oauth_pass_through params
  then (extract_oauth_from_request headers params, api_key)
  else
    let request_headers :=
      match proxy_server_request_headers params with
      | Some h => h
      | None => default ∅ (secret_fields_raw_headers params)
      end in
    (if decide (request_headers = ∅) then None
     else extract_oauth_from_request request_headers params, api_key).

(** [AnthropicModelInfo.validate_environment].  The record [f] holds the
    results of the calls [is_cache_control_set], [is_computer_tool_used],
    [is_mcp_server_used], [is_pdf_used] and [is_file_id_used] on the
    messages and the optional parameters, and the entry
    [is_vertex_request] of the latter. *)
Definition validate_environment `{BetaOrder} (headers : gmap string string)
    (f : flags) (params : litellm_params) (api_key : option string)
    : validated :=
  let '(oauth, key) := credentials headers params api_key in
  match oauth, key with
  | None, None => AuthenticationError
  | _, _ =>
      let user := get_user_anthropic_beta_headers (headers !! "anthropic-beta") in
      let anthropic_headers :=
        get_anthropic_headers (if given key then default "" key else "")
          None f user oauth in
      Headers (anthropic_headers ∪ headers)
  end.

(** [AnthropicModelInfo.get_base_model] *)
Definition get_base_model (model : option string) : option string :=
  if given model then Some (replace "anthropic/" "" (default "" model))
  else None.

(** [process_anthropic_headers] on a plain dict of headers. *)
Definition process_anthropic_headers (headers : gmap string string)
    : gmap string string :=
  let copy (src dst : string) (m : gmap string string) :=
    match headers !! src with
    | Some v => <[dst := v]> m
    | None => m
    end in
  let openai_headers :=
    copy "anthropic-ratelimit-tokens-remaining" "x-ratelimit-remaining-tokens"
      (copy "anthropic-ratelimit-tokens-limit" "x-ratelimit-limit-tokens"
         (copy "anthropic-ratelimit-requests-remaining"
               "x-ratelimit-remaining-requests"
            (copy "anthropic-ratelimit-requests-limit"
                  "x-ratelimit-limit-requests" ∅))) in
  let llm_response_headers := kmap (String.app "llm_provider-") headers in
  openai_headers ∪ llm_response_headers.

End CommonUtils.

(** ** Sample data for the closed examples *)

Module Examples.
Import Py Trace.

Definition msg_user_hi : value :=
  VDict [("role", VStr "user"); ("content", VStr "hi")].
Definition msg_user_hi_swapped : value :=
  VDict [("content", VStr "hi"); ("role", VStr "user")].
Definition msg_assistant_hello : value :=
  VDict [("role", VStr "assistant"); ("content", VStr "hello")].

(** The two turns of the end-to-end scenario. *)
Definition turn1 : list value := [msg_user_hi].
Definition turn2 : list value := [msg_user_hi; msg_assistant_hello].

Definition row_at (id : string) (start stop : option Z) : span :=
  {| span_id := id; trace_id := Val "T1"; parent_id := None;
     start_time := start; end_time := stop; name := "call"; kind := "LLM";
     metadata := None |}.

(** Three one-second rows, 301 seconds apart and one second apart. *)
Definition rows_far : list span :=
  [row_at "a" (Some 0) (Some 1000);
   row_at "b" (Some 302000) (Some 303000);
   row_at "c" (Some 604000) (Some 605000)].
Definition rows_near : list span :=
  [row_at "a" (Some 0) (Some 1000);
   row_at "b" (Some 2000) (Some 3000);
   row_at "c" (Some 4000) (Some 5000)].

Definition row_with (meta : option value) (trace : cell string) : span :=
  {| span_id := "s1"; trace_id := trace; parent_id := None;
     start_time := None; end_time := None; name := "call"; kind := "LLM";
     metadata := meta |}.

Definition row_session_42 : span :=
  row_with (Some (VDict [("user_id", VStr "abc_session_42")])) (Val "T1").
Definition row_empty_id : span :=
  row_with (Some (VDict [("user_id", VStr "abc_session_")])) (Val "T1").
Definition row_trace_only : span := row_with None (Val "T1").
Definition row_no_key : span := row_with None NA.

Definition node (id : string) (parent : option string) (start : Z) : span :=
  {| span_id := id; trace_id := Val "T1"; parent_id := parent;
     start_time := Some start; end_time := Some (start + 1); name := "call";
     kind := "CHAIN"; metadata := None |}.

(** A row that names itself as its parent. *)
Definition self_parent : span := node "a" (Some "a") 0.

(** A root with one child, next to a row that is its own parent. *)
Definition tree_frame : list span :=
  [node "r" None 0; node "c" (Some "r") 1; node "z" (Some "z") 2].

(** Two rows sharing one span id, the second its own parent. *)
Definition twin_frame : list span :=
  [node "a" None 0; node "a" (Some "a") 1].

End Examples.

(** ** Sample data for the orphan rows and the Anthropic headers *)

Module Samples.
Import Py Trace ReconstructSessions CommonUtils Examples.

(** A root, a row whose parent is not in the frame, and a child of that
    row. *)
Definition orphan_row : span := node "o" (Some "gone") 1.
Definition orphan_child : span := node "k" (Some "o") 2.
Definition orphan_frame : list span :=
  [node "r" None 0; orphan_row; orphan_child].

(** The betas in the order of [elements]. *)
#[export] Instance beta_by_elements : BetaOrder :=
  {| beta_order := elements; beta_order_elements := λ _, reflexivity _ |}.

Definition oauth_sample : string := "sk-ant-oat01-abc".
Definition api_key_sample : string := "sk-ant-api03-xyz".

Definition bearer_headers : gmap string string :=
  {[ "authorization" := "Bearer sk-ant-oat01-abc" ]}.
Definition basic_headers : gmap string string :=
  {[ "authorization" := "Basic dXNlcg==" ]}.

Definition pass_through_on : litellm_params :=
  {| oauth_pass_through := true; oauth_token := None;
     proxy_server_request_headers := None; secret_fields_raw_headers := None |}.
Definition pass_through_off : litellm_params :=
  {| oauth_pass_through := false; oauth_token := None;
     proxy_server_request_headers := Some bearer_headers;
     secret_fields_raw_headers := None |}.

(** A row without start time after a first row, and a third row a day
    later, in a frame with both timestamp columns. *)
Definition folded_frame : frame :=
  {| frame_rows := [row_at "a" (Some 0) (Some 1000); row_at "b" None (Some 2000);
                    row_at "c" (Some 86400000) (Some 86401000)];
     has_start_time := true; has_end_time := true |}.

(** Two rows of a file whose records have no [end_time] entry. *)
Definition no_end_time_frame : frame :=
  {| frame_rows := [row_at "a" (Some 0) None; row_at "b" (Some 1000) None];
     has_start_time := true; has_end_time := false |}.

Definition caching_flags : flags :=
  {| computer_tool_used := false; prompt_caching_set := true; pdf_used := false;
     file_id_used := false; mcp_server_used := false;
     is_vertex_request := false |}.

End Samples.

(* ===================================================================== *)
(** * Part II: properties                                                 *)
(* ===================================================================== *)

(** ** Generic list and arithmetic helpers *)

Module Aux.

Lemma filter_all_true {A} (P : A → Prop) `{∀ x, Decision (P x)} (l : list A) :
  Forall P l → filter P l = l.
Proof.
  induction 1 as [|x l Hx _ IH]; [done|].
  by rewrite filter_cons_True, IH.
Qed.

Lemma filter_all_false {A} (P : A → Prop) `{∀ x, Decision (P x)} (l : list A) :
  Forall (λ x, ¬ P x) l → filter P l = [].
Proof.
  induction 1 as [|x l Hx _ IH]; [done|].
  by rewrite filter_cons_False, IH.
Qed.

Lemma filter_ext_in {A} (P Q : A → Prop)
    `{∀ x, Decision (P x)} `{∀ x, Decision (Q x)} (l : list A) :
  (∀ x, x ∈ l → P x ↔ Q x) → filter P l = filter Q l.
Proof.
  induction l as [|x l IH]; intros HPQ; [done|].
  rewrite !filter_cons.
  rewrite IH by (intros y Hy; apply HPQ; by right).
  destruct (decide (P x)) as [HP|HP], (decide (Q x)) as [HQ|HQ]; try done.
  - destruct HQ. apply HPQ; [by left|done].
  - destruct HP. apply HPQ; [by left|done].
Qed.

Lemma filter_length_mono {A} (P Q : A → Prop)
    `{∀ x, Decision (P x)} `{∀ x, Decision (Q x)} (l : list A) :
  (∀ x, x ∈ l → P x → Q x) →
  (length (filter P l) ≤ length (filter Q l))%nat.
Proof.
  induction l as [|x l IH]; intros HPQ; [done|].
  rewrite !filter_cons.
  assert (length (filter P l) ≤ length (filter Q l))%nat as Hle
    by (apply IH; intros y Hy; apply HPQ; by right).
  destruct (decide (P x)) as [HP|HP], (decide (Q x)) as [HQ|HQ];
    simpl; try lia.
  destruct HQ. apply HPQ; [by left|done].
Qed.

Lemma filter_length_gain {A} (P Q : A → Prop)
    `{∀ x, Decision (P x)} `{∀ x, Decision (Q x)} (l : list A) (a : A) :
  (∀ x, x ∈ l → P x → Q x) → a ∈ l → ¬ P a → Q a →
  (S (length (filter P l)) ≤ length (filter Q l))%nat.
Proof.
  induction l as [|x l IH]; intros HPQ Ha HnP HQa; [by inv Ha|].
  rewrite !filter_cons.
  assert (∀ y, y ∈ l → P y → Q y) as HPQ'
    by (intros y Hy; apply HPQ; by right).
  pose proof (filter_length_mono P Q l HPQ') as Hmono.
  apply elem_of_cons in Ha as [->|Hal].
  - rewrite decide_False, decide_True by done. simpl. lia.
  - specialize (IH HPQ' Hal HnP HQa).
    destruct (decide (P x)) as [HP|HP], (decide (Q x)) as [HQ|HQ];
      simpl; try lia.
    destruct HQ. apply HPQ; [by left|done].
Qed.

Lemma NoDup_fmap_elem_inj {A B} (f : A → B) (l : list A) (x y : A) :
  NoDup (f <$> l) → x ∈ l → y ∈ l → f x = f y → x = y.
Proof.
  induction l as [|z l IH]; intros Hnd Hx Hy Hf; [by apply elem_of_nil in Hx|].
  rewrite fmap_cons in Hnd. apply NoDup_cons in Hnd as [Hz Hnd].
  apply elem_of_cons in Hx as [->|Hx]; apply elem_of_cons in Hy as [->|Hy];
    try done.
  - destruct Hz. rewrite Hf. by apply list_elem_of_fmap_2.
  - destruct Hz. rewrite <- Hf. by apply list_elem_of_fmap_2.
  - by apply IH.
Qed.

Lemma Zpos_of_nat (n : nat) : (0 < n)%nat → Z.pos (Pos.of_nat n) = Z.of_nat n.
Proof. intros Hn. rewrite <- (Nat2Pos.id n) at 2 by lia. by rewrite positive_nat_Z. Qed.

End Aux.

(** ** Facts about the Python primitives *)

Module PyFacts.
Import Py.

Global Instance key_le_trans {V} : Transitive (@key_le V).
Proof. intros a b c. unfold key_le. apply (transitivity (R:=String.le)). Qed.

Global Instance key_le_total {V} : Total (@key_le V).
Proof. intros a b. unfold key_le. apply (total String.le). Qed.

Lemma sort_items_sorted {V} (l : list (string * V)) :
  StronglySorted key_le (sort_items l).
Proof. apply StronglySorted_merge_sort; apply _. Qed.

Lemma sort_items_perm {V} (l : list (string * V)) : sort_items l ≡ₚ l.
Proof. apply merge_sort_Permutation. Qed.

(** Sorting by key forgets the insertion order of a dict. *)
Lemma sort_items_reorder {V} (l1 l2 : list (string * V)) :
  NoDup (l1.*1) → l1 ≡ₚ l2 → sort_items l1 = sort_items l2.
Proof.
  intros Hnd Hperm.
  assert (∀ x1 x2 : string * V, x1 ∈ l1 → x2 ∈ l1 → x1.1 = x2.1 → x1 = x2)
    as Hinj.
  { clear Hperm. induction l1 as [|y l IH]; intros x1 x2 Hx1 Hx2 Hk;
      [by apply elem_of_nil in Hx1|].
    rewrite fmap_cons in Hnd. apply NoDup_cons in Hnd as [Hy Hnd].
    apply elem_of_cons in Hx1 as [->|Hx1];
      apply elem_of_cons in Hx2 as [->|Hx2]; try done.
    - destruct Hy. rewrite Hk. by apply list_elem_of_fmap_2.
    - destruct Hy. rewrite <- Hk. by apply list_elem_of_fmap_2.
    - by apply IH. }
  apply (StronglySorted_unique_strong key_le).
  - intros x1 x2 Hx1 Hx2 H12 H21.
    rewrite sort_items_perm in Hx1. rewrite sort_items_perm, <- Hperm in Hx2.
    apply Hinj; [done..|]. by apply (anti_symm String.le).
  - apply sort_items_sorted.
  - apply sort_items_sorted.
  - by rewrite !sort_items_perm.
Qed.

Lemma json_dumps_reorder (d1 d2 : list (string * value)) :
  dict_wf d1 → d1 ≡ₚ d2 → json_dumps (VDict d1) = json_dumps (VDict d2).
Proof.
  intros Hwf Hperm. simpl. do 4 f_equal.
  apply sort_items_reorder.
  - rewrite <- list_fmap_compose. exact Hwf.
  - by apply fmap_Permutation.
Qed.

End PyFacts.

Module CompareSpansFacts.
Import Py CompareSpans Examples Aux PyFacts.

Section Facts.
Context `{Repr}.

Lemma percentage_full (n : nat) : (0 < n)%nat → (percentage n n == 100)%Q.
Proof.
  intros Hn. unfold percentage, Qeq. simpl.
  rewrite Pos.mul_1_r, Zpos_of_nat by done. lia.
Qed.

Lemma canonical_list_Some (l : list value) :
  canonical_list (Some l) = canonical <$> l.
Proof. done. Qed.

(** C4.  The end-to-end scenario of two spans, the second repeating the
    single message of the first and adding one: the diff analyzer reports
    overlap 1, new 1, overlap percentage 50, and the first-into-second
    containment check reports a complete subset. *)
Theorem scenario_two_turns :
  duplicated_count (compare_messages (Some turn1) (Some turn2)) = 1%nat
  ∧ new_count (compare_messages (Some turn1) (Some turn2)) = 1%nat
  ∧ (overlap_percentage (compare_messages (Some turn1) (Some turn2)) == 50)%Q
  ∧ is_complete_subset (check_complete_containment (Some turn1) (Some turn2))
    = true.
Proof. vm_compute. by repeat split. Qed.

(** C5.  A non-empty sequence is fully contained in itself, with a
    containment percentage of 100; an empty (or missing) earlier sequence
    is never reported as fully contained, whatever the later one is. *)
Theorem containment_self_and_empty (S : list value) (later : option (list value)) :
  S ≠ [] →
  is_complete_subset (check_complete_containment (Some S) (Some S)) = true
  ∧ (containment_percentage (check_complete_containment (Some S) (Some S)) == 100)%Q
  ∧ is_complete_subset (check_complete_containment (Some []) later) = false
  ∧ is_complete_subset (check_complete_containment None later) = false.
Proof.
  intros HS. split; [|split; [|done]].
  - unfold check_complete_containment. cbn [is_complete_subset].
    rewrite canonical_list_Some.
    rewrite (filter_all_false (λ m, m ∉ canonical <$> S))
      by (apply Forall_forall; intros m Hm Hn; done).
    destruct S as [|m S]; [done|]. done.
  - unfold check_complete_containment. cbn [containment_percentage].
    rewrite canonical_list_Some.
    rewrite (filter_all_true (λ m, m ∈ canonical <$> S))
      by (by apply Forall_forall).
    destruct S as [|m S]; [done|].
    apply percentage_full. rewrite length_fmap. simpl. lia.
Qed.

Lemma canonical_reordered (a b : value) :
  reordered a b → canonical a = canonical b.
Proof.
  intros [->|(d1 & d2 & -> & -> & Hwf & Hperm)]; [done|].
  by apply json_dumps_reorder.
Qed.

Lemma canonical_list_reordered (l l' : list value) :
  Forall2 reordered l l' → canonical_list (Some l) = canonical_list (Some l').
Proof.
  rewrite !canonical_list_Some.
  induction 1 as [|a b l l' Hab _ IH]; [done|].
  rewrite !fmap_cons. f_equal; [by apply canonical_reordered|done].
Qed.

(** C6.  The canonical form does not depend on the order of the fields of
    a record: two dicts holding the same key/value pairs in different
    orders have one canonical text, so replacing records by reordered
    copies changes the result of neither [compare_messages] nor
    [check_complete_containment]; and two elements that are not dicts
    have the same canonical text exactly when [str] prints them alike. *)
Theorem canonical_equality_key_order (d1 d2 : list (string * value))
    (earlier earlier' later later' : list value) (a b : value) :
  dict_wf d1 → d1 ≡ₚ d2 →
  Forall2 reordered earlier earlier' → Forall2 reordered later later' →
  canonical (VDict d1) = canonical (VDict d2)
  ∧ compare_messages (Some earlier) (Some later)
    = compare_messages (Some earlier') (Some later')
  ∧ check_complete_containment (Some earlier) (Some later)
    = check_complete_containment (Some earlier') (Some later')
  ∧ (is_dict a = false → is_dict b = false →
     (canonical a = canonical b ↔ str a = str b)).
Proof.
  intros Hwf Hperm He Hl. split; [|split; [|split]].
  - apply canonical_reordered. right. by exists d1, d2.
  - unfold compare_messages.
    by rewrite (canonical_list_reordered _ _ He), (canonical_list_reordered _ _ Hl).
  - unfold check_complete_containment.
    by rewrite (canonical_list_reordered _ _ He), (canonical_list_reordered _ _ Hl).
  - intros Ha Hb. unfold canonical. by rewrite Ha, Hb.
Qed.

Lemma duplicated_count_snoc_le (earlier later : list value) (e : value) :
  (duplicated_count (compare_messages (Some earlier) (Some later))
   ≤ duplicated_count (compare_messages (Some earlier) (Some (later ++ [e]))))%nat.
Proof.
  unfold compare_messages. cbn [duplicated_count].
  rewrite !canonical_list_Some, fmap_app.
  apply filter_length_mono. intros m _ Hm. apply elem_of_app. by left.
Qed.

Lemma duplicated_count_snoc_gain (earlier later : list value) (e : value) :
  e ∈ earlier → canonical e ∉ canonical <$> later →
  (S (duplicated_count (compare_messages (Some earlier) (Some later)))
   ≤ duplicated_count (compare_messages (Some earlier) (Some (later ++ [e]))))%nat.
Proof.
  intros He Hnew. unfold compare_messages. cbn [duplicated_count].
  rewrite !canonical_list_Some, fmap_app.
  apply (filter_length_gain _ _ _ (canonical e)).
  - intros m _ Hm. apply elem_of_app. by left.
  - by apply list_elem_of_fmap_2.
  - done.
  - apply elem_of_app. right. simpl. by left.
Qed.

Lemma percentage_snoc_le (d d' n : nat) :
  (S d ≤ d')%nat → (d ≤ n)%nat → (0 < n)%nat →
  (percentage d n <= percentage d' (S n))%Q.
Proof.
  intros Hd Hn Hpos. unfold percentage, Qle. simpl Qnum. simpl Qden.
  rewrite !Pos.mul_1_r, !Zpos_of_nat by lia. nia.
Qed.

(** C9, as amended.  Appending an element to [later] never lowers the
    overlap count.  The overlap percentage itself is only kept from
    dropping when the appended element of [earlier] was not yet part of
    [later] and the overlap count did not exceed the length of [later]. *)
Theorem overlap_after_append (earlier later : list value) (e : value) :
  e ∈ earlier →
  (duplicated_count (compare_messages (Some earlier) (Some later))
   ≤ duplicated_count (compare_messages (Some earlier) (Some (later ++ [e]))))%nat
  ∧ (canonical e ∉ canonical <$> later →
     (duplicated_count (compare_messages (Some earlier) (Some later))
      ≤ length later)%nat →
     (overlap_percentage (compare_messages (Some earlier) (Some later))
      <= overlap_percentage (compare_messages (Some earlier) (Some (later ++ [e]))))%Q).
Proof.
  intros He. split; [apply duplicated_count_snoc_le|].
  intros Hnew Hle.
  pose proof (duplicated_count_snoc_gain earlier later e He Hnew) as Hgain.
  revert Hle Hgain. unfold compare_messages.
  cbn [duplicated_count overlap_percentage].
  rewrite !canonical_list_Some, fmap_app.
  set (d := length (filter _ (canonical <$> earlier))).
  set (d' := length (filter _ (canonical <$> earlier))).
  rewrite <- (length_fmap canonical later).
  generalize (canonical <$> later). intros L Hle Hgain. clearbody d d'.
  destruct L as [|x L]; simpl.
  - unfold percentage, Qle. simpl. lia.
  - rewrite length_app. simpl. rewrite Nat.add_1_r.
    apply percentage_snoc_le; simpl in *; lia.
Qed.

(** C10.  The overlap counts the elements of [earlier], with their
    multiplicity, whose canonical text occurs in [later]; the number of
    copies [later] holds is irrelevant.  With two copies in [earlier] and
    one in [later] the overlap percentage is 200. *)
Theorem overlap_counts_earlier :
  (∀ earlier later : list value,
     duplicated_count (compare_messages (Some earlier) (Some later))
     = length (filter (λ m, canonical m ∈ canonical <$> later) earlier))
  ∧ (∀ earlier later : list value,
       duplicated_count (compare_messages (Some earlier) (Some (later ++ later)))
       = duplicated_count (compare_messages (Some earlier) (Some later)))
  ∧ duplicated_count
      (compare_messages (Some [msg_user_hi; msg_user_hi]) (Some [msg_user_hi]))
    = 2%nat
  ∧ (overlap_percentage
       (compare_messages (Some [msg_user_hi; msg_user_hi]) (Some [msg_user_hi]))
     == 200)%Q
  ∧ (100 <
     overlap_percentage
       (compare_messages (Some [msg_user_hi; msg_user_hi]) (Some [msg_user_hi])))%Q.
Proof.
  split; [|split; [|by vm_compute]].
  - intros earlier later. unfold compare_messages. cbn [duplicated_count].
    rewrite !canonical_list_Some.
    induction earlier as [|m earlier IH]; [done|].
    rewrite fmap_cons, !filter_cons.
    destruct (decide (canonical m ∈ canonical <$> later)); simpl; lia.
  - intros earlier later. unfold compare_messages. cbn [duplicated_count].
    rewrite !canonical_list_Some, fmap_app. f_equal.
    apply filter_ext_in. intros m _. rewrite elem_of_app. tauto.
Qed.

End Facts.

(** C5, on the transcript of the second turn. *)
Lemma containment_self_and_empty_witness :
  turn2 ≠ []
  ∧ is_complete_subset
      (check_complete_containment (H := sample_repr) (Some turn2) (Some turn2))
    = true.
Proof.
  split; [discriminate|].
  apply (containment_self_and_empty (H := sample_repr) turn2 None).
  discriminate.
Defined.

(** C6, on the first message and a copy with its two fields swapped. *)
Lemma canonical_equality_key_order_witness :
  canonical (H := sample_repr) msg_user_hi
  = canonical (H := sample_repr) msg_user_hi_swapped
  ∧ compare_messages (H := sample_repr) (Some [msg_user_hi]) (Some turn2)
    = compare_messages (H := sample_repr) (Some [msg_user_hi_swapped]) (Some turn2).
Proof.
  assert (dict_wf [("role", VStr "user"); ("content", VStr "hi")]) as Hwf.
  { unfold dict_wf. apply (bool_decide_unpack _). vm_compute. exact I. }
  assert ([("role", VStr "user"); ("content", VStr "hi")]
          ≡ₚ [("content", VStr "hi"); ("role", VStr "user")]) as Hperm.
  { apply perm_swap. }
  assert (Forall2 reordered [msg_user_hi] [msg_user_hi_swapped]) as He.
  { constructor; [|constructor]. right.
    eexists _, _. split; [reflexivity|]. split; [reflexivity|].
    split; [exact Hwf|exact Hperm]. }
  assert (Forall2 reordered turn2 turn2) as Hl.
  { constructor; [by left|]. constructor; [by left|]. constructor. }
  destruct (canonical_equality_key_order (H := sample_repr) _ _ _ _ _ _
              VNone VNone Hwf Hperm He Hl) as (Hc & Hcmp & _).
  split; [exact Hc|exact Hcmp].
Defined.

(** C9 as stated fails: with [earlier = later = turn1] the overlap
    percentage is 100; appending the message of [earlier] to [later] once
    more lowers it to 50. *)
Lemma overlap_percentage_drops :
  msg_user_hi ∈ turn1
  ∧ (overlap_percentage
       (compare_messages (H := sample_repr) (Some turn1) (Some turn1)) == 100)%Q
  ∧ (overlap_percentage
       (compare_messages (H := sample_repr) (Some turn1)
          (Some (turn1 ++ [msg_user_hi]))) == 50)%Q
  ∧ ¬ (overlap_percentage
         (compare_messages (H := sample_repr) (Some turn1) (Some turn1))
       <= overlap_percentage
            (compare_messages (H := sample_repr) (Some turn1)
               (Some (turn1 ++ [msg_user_hi]))))%Q.
Proof.
  split; [by left|]. split; [by vm_compute|]. split; [by vm_compute|].
  vm_compute. intros Hle. by apply Hle.
Qed.

(** C9 as amended, on appending the second message of [turn2] to
    [turn1]. *)
Lemma overlap_after_append_witness :
  (overlap_percentage
     (compare_messages (H := sample_repr) (Some turn2) (Some turn1))
   <= overlap_percentage
        (compare_messages (H := sample_repr) (Some turn2)
           (Some (turn1 ++ [msg_assistant_hello]))))%Q.
Proof.
  assert (msg_assistant_hello ∈ turn2) as He by (right; left).
  destruct (overlap_after_append (H := sample_repr) turn2 turn1
              msg_assistant_hello He) as [_ Hpct].
  apply Hpct.
  - apply (bool_decide_unpack _). vm_compute. exact I.
  - vm_compute. lia.
Defined.

End CompareSpansFacts.

(** ** The temporal segmenter *)

Module SegmenterFacts.
Import Py Trace ReconstructSessions Examples Samples.

Lemma exceeds_spaced (s e seconds threshold : Z) :
  s - e = 1000 * seconds →
  exceeds (gap_seconds (Some s) (Some e)) threshold = bool_decide (threshold < seconds).
Proof.
  intros Hgap. unfold exceeds, gap_seconds, total_seconds. rewrite Hgap.
  destruct (Qle_bool (1000 * seconds # 1000) (inject_Z threshold)) eqn:Hle.
  - apply Qle_bool_iff in Hle. unfold Qle in Hle. simpl in Hle.
    rewrite bool_decide_eq_false_2; [done|lia].
  - rewrite bool_decide_eq_true_2; [done|].
    destruct (decide (threshold < seconds)) as [|Hge]; [done|].
    assert (Qle_bool (1000 * seconds # 1000) (inject_Z threshold) = true) as Hle'.
    { apply Qle_bool_iff. unfold Qle. simpl. lia. }
    congruence.
Qed.

Lemma exceeds_missing (start last_end : option Z) (threshold : Z) :
  start = None ∨ last_end = None →
  exceeds (gap_seconds start last_end) threshold = false.
Proof. intros [-> | ->]; [done|]. by destruct start. Qed.

(** Rows spaced by more than the threshold: every row opens a segment. *)
Lemma scan_singletons (threshold : Z) (df : list span) (a : span)
    (convs : list (list span)) :
  evenly_spaced (threshold + 1) (a :: df) →
  close_current
    (foldl (scan_row threshold)
       {| conversations := convs; current_conversation := [a];
          last_end_time := Some (end_time a) |} df)
  = convs ++ [a] :: ((λ row, [row]) <$> df).
Proof.
  revert a convs. induction df as [|b df IH]; intros a convs Hsp; [done|].
  destruct Hsp as [(e & s & He & Hs & Hgap) Hrest].
  cbn [foldl]. unfold scan_row at 2. cbn [last_end_time].
  rewrite He, Hs, (exceeds_spaced _ _ _ _ Hgap).
  rewrite bool_decide_eq_true_2 by lia.
  cbn [close_current current_conversation conversations].
  rewrite IH by done. by rewrite <- app_assoc.
Qed.

(** Rows spaced by no more than the threshold: the open segment grows. *)
Lemma scan_one_segment (threshold seconds : Z) (df cur : list span) (a : span)
    (convs : list (list span)) :
  seconds ≤ threshold →
  evenly_spaced seconds (a :: df) →
  close_current
    (foldl (scan_row threshold)
       {| conversations := convs; current_conversation := cur ++ [a];
          last_end_time := Some (end_time a) |} df)
  = convs ++ [cur ++ a :: df].
Proof.
  intros Hle. revert a cur. induction df as [|b df IH]; intros a cur Hsp.
  - unfold close_current. simpl. by destruct cur.
  - destruct Hsp as [(e & s & He & Hs & Hgap) Hrest].
    cbn [foldl]. unfold scan_row at 2. cbn [last_end_time].
    rewrite He, Hs, (exceeds_spaced _ _ _ _ Hgap).
    rewrite bool_decide_eq_false_2 by lia.
    cbn [current_conversation conversations].
    rewrite IH by done. by rewrite <- app_assoc.
Qed.

(** C7.  Rows that each start [threshold + 1] seconds after the end of
    the previous one are split into as many segments as there are rows,
    one row each; rows that each start one second after the end of the
    previous one form, with a threshold of 300, a single segment holding
    all of them. *)
Theorem uniform_gaps_segments (threshold : Z) (df1 df2 : list span) :
  evenly_spaced (threshold + 1) df1 →
  evenly_spaced 1 df2 → df2 ≠ [] →
  detect_conversation_boundaries df1 threshold = (λ row, [row]) <$> df1
  ∧ length (detect_conversation_boundaries df1 threshold) = length df1
  ∧ detect_conversation_boundaries df2 300 = [df2].
Proof.
  intros H1 H2 Hne.
  assert (detect_conversation_boundaries df1 threshold = (λ row, [row]) <$> df1)
    as Hsingle.
  { unfold detect_conversation_boundaries.
    destruct df1 as [|a df1]; [done|].
    cbn [foldl]. unfold scan_row at 2. cbn.
    exact (scan_singletons threshold df1 a [] H1). }
  split; [done|split].
  - by rewrite Hsingle, length_fmap.
  - unfold detect_conversation_boundaries.
    destruct df2 as [|a df2]; [done|].
    cbn [foldl]. unfold scan_row at 2. cbn.
    exact (scan_one_segment 300 1 df2 [] a [] ltac:(lia) H2).
Qed.

Lemma scan_row_current (threshold : Z) (st : scan) (row : span) :
  ∃ l, current_conversation (scan_row threshold st row) = l ++ [row].
Proof.
  unfold scan_row. destruct (last_end_time st) as [last|].
  - destruct (exceeds _ _); [by exists []|by eexists].
  - by eexists.
Qed.

Lemma scan_row_last_end (threshold : Z) (st : scan) (row : span) :
  last_end_time (scan_row threshold st row) = Some (end_time row).
Proof.
  unfold scan_row. destruct (last_end_time st) as [last|]; [|done].
  by destruct (exceeds _ _).
Qed.

(** Once a row sits in the open segment, the rest of the scan can only
    extend that segment or close it as it is. *)
Lemma scan_keeps_current (threshold : Z) (post : list span) (st : scan)
    (cur : list span) :
  current_conversation st = cur → cur ≠ [] →
  ∃ l segs,
    close_current (foldl (scan_row threshold) st post)
    = conversations st ++ [cur ++ l] ++ segs.
Proof.
  revert st cur. induction post as [|x post IH]; intros st cur Hcur Hne.
  - exists [], []. unfold close_current. simpl. rewrite Hcur, app_nil_r.
    by destruct cur.
  - cbn [foldl].
    assert (close_current st = conversations st ++ [cur]) as Hclose.
    { unfold close_current. rewrite Hcur. by destruct cur. }
    set (st' := scan_row threshold st x).
    assert ((current_conversation st' = [x]
             ∧ conversations st' = conversations st ++ [cur])
            ∨ (current_conversation st' = cur ++ [x]
               ∧ conversations st' = conversations st)) as [[Hc Hv]|[Hc Hv]].
    { unfold st', scan_row.
      destruct (last_end_time st); [destruct (exceeds _ _)|];
        cbn; rewrite ?Hclose, ?Hcur; auto. }
    + destruct (IH st' [x] Hc) as (l & segs & ->); [done|].
      rewrite Hv. exists [], (([x] ++ l) :: segs).
      by rewrite app_nil_r, <- app_assoc.
    + destruct (IH st' (cur ++ [x]) Hc) as (l & segs & ->); [by destruct cur|].
      rewrite Hv. exists (x :: l), segs. by rewrite <- app_assoc.
Qed.

(** A row whose start time is null, or whose predecessor has a null end
    time, follows its predecessor inside one segment. *)
Lemma null_timestamp_same_segment (threshold : Z) (pre post : list span)
    (p r : span) :
  start_time r = None ∨ end_time p = None →
  ∃ segs1 l1 l2 segs2,
    detect_conversation_boundaries (pre ++ p :: r :: post) threshold
    = segs1 ++ [l1 ++ p :: r :: l2] ++ segs2.
Proof.
  intros Hmiss.
  unfold detect_conversation_boundaries.
  rewrite foldl_app. cbn [foldl].
  set (st0 := foldl (scan_row threshold) scan_start pre).
  destruct (scan_row_current threshold st0 p) as [l1 Hcur].
  pose proof (scan_row_last_end threshold st0 p) as Hlast.
  set (st1 := scan_row threshold st0 p) in *.
  assert (current_conversation (scan_row threshold st1 r) = l1 ++ [p; r]
          ∧ conversations (scan_row threshold st1 r) = conversations st1)
    as [Hcur2 Hconv2].
  { unfold scan_row. rewrite Hlast, (exceeds_missing _ _ _ Hmiss).
    cbn. by rewrite Hcur, <- app_assoc. }
  destruct (scan_keeps_current threshold post (scan_row threshold st1 r)
              (l1 ++ [p; r])) as (l2 & segs2 & ->); [done|by destruct l1|].
  exists (conversations st1), l1, l2, segs2.
  by rewrite Hconv2, <- !app_assoc.
Qed.

(** On a frame with both columns the scan is the loop on its rows; on a
    frame with rows and without one of the columns it stops at the first
    read of the missing column. *)
Lemma scan_frame_cases (df : frame) (threshold : Z) (st : scan)
    (rows : list span) :
  scan_frame df threshold st rows
  = match rows with
    | [] => inr st
    | _ :: _ =>
        if negb (has_start_time df) then inl "start_time"
        else if negb (has_end_time df) then inl "end_time"
        else inr (foldl (scan_row threshold) st rows)
    end.
Proof.
  revert st. induction rows as [|row rows IH]; intros st; [done|].
  cbn [scan_frame foldl]. unfold scan_row_frame.
  destruct (has_start_time df); [|done].
  destruct (has_end_time df); [|done]. cbn [negb].
  rewrite IH. by destruct rows.
Qed.

(** C8.  A row whose start time is null, or whose predecessor has a null
    end time, never opens a segment: the comparison of the gap with the
    threshold fails, and on a frame that has the columns [start_time]
    and [end_time] the call returns, the row following its predecessor
    inside one segment of the result.  On a frame that lacks one of the
    two columns the call raises the [KeyError] of the first column
    missing. *)
Theorem missing_timestamp_folds (df : frame) (threshold : Z)
    (pre post : list span) (p r : span) :
  frame_rows df = pre ++ p :: r :: post →
  start_time r = None ∨ end_time p = None →
  exceeds (gap_seconds (start_time r) (end_time p)) threshold = false
  ∧ (has_start_time df = true → has_end_time df = true →
     ∃ segs1 l1 l2 segs2,
       detect_conversation_boundaries_frame df threshold
       = Conversations (segs1 ++ [l1 ++ p :: r :: l2] ++ segs2))
  ∧ (has_start_time df = false →
     detect_conversation_boundaries_frame df threshold = KeyError "start_time")
  ∧ (has_start_time df = true → has_end_time df = false →
     detect_conversation_boundaries_frame df threshold = KeyError "end_time").
Proof.
  intros Hrows Hmiss. split; [by apply exceeds_missing|].
  unfold detect_conversation_boundaries_frame.
  rewrite scan_frame_cases, Hrows.
  assert (pre ++ p :: r :: post ≠ []) as Hne by (by destruct pre).
  destruct (pre ++ p :: r :: post) as [|row rows] eqn:Heq; [done|].
  rewrite <- Heq. clear Hne.
  split; [|split].
  - intros -> ->. cbn [negb].
    destruct (null_timestamp_same_segment threshold pre post p r Hmiss)
      as (segs1 & l1 & l2 & segs2 & Hsegs).
    exists segs1, l1, l2, segs2. f_equal. exact Hsegs.
  - by intros ->.
  - by intros -> ->.
Qed.

(** C7, on three rows: gaps of 301 seconds against a threshold of 300,
    and gaps of one second. *)
Lemma uniform_gaps_segments_witness :
  length (detect_conversation_boundaries rows_far 300) = 3%nat
  ∧ detect_conversation_boundaries rows_near 300 = [rows_near].
Proof.
  assert (evenly_spaced (300 + 1) rows_far) as Hfar.
  { simpl. repeat split; eauto 10. }
  assert (evenly_spaced 1 rows_near) as Hnear.
  { simpl. repeat split; eauto 10. }
  destruct (uniform_gaps_segments 300 rows_far rows_near Hfar Hnear)
    as (_ & Hlen & Hone); [discriminate|].
  split; [exact Hlen|exact Hone].
Defined.

(** C8, on a row without start time between two rows a day apart. *)
Lemma missing_timestamp_folds_witness :
  exceeds (gap_seconds None (Some 1000)) 300 = false
  ∧ ∃ segs1 l1 l2 segs2,
      detect_conversation_boundaries_frame folded_frame 300
      = Conversations
          (segs1 ++ [l1 ++ row_at "a" (Some 0) (Some 1000)
                        :: row_at "b" None (Some 2000) :: l2] ++ segs2).
Proof.
  destruct (missing_timestamp_folds folded_frame 300 []
              [row_at "c" (Some 86400000) (Some 86401000)]
              (row_at "a" (Some 0) (Some 1000)) (row_at "b" None (Some 2000))
              eq_refl (or_introl eq_refl)) as (Hgap & Hfold & _).
  split; [exact Hgap|]. exact (Hfold eq_refl eq_refl).
Defined.

(** C8 as stated fails on records without an [end_time] entry: the frame
    has no such column, and the first pass through the loop raises. *)
Lemma absent_end_time_raises :
  Forall (λ row, end_time row = None) (frame_rows no_end_time_frame)
  ∧ detect_conversation_boundaries_frame no_end_time_frame 300
    = KeyError "end_time".
Proof. split; [by repeat constructor|done]. Qed.

End SegmenterFacts.

(** ** Strings: occurrences of a separator and [split] *)

Module StringFacts.
Import Py.

Local Arguments String.append !_ _ / : simpl nomatch.

Lemma str_app_assoc (a b c : string) : (a +:+ b) +:+ c = a +:+ (b +:+ c).
Proof. induction a as [|x a IH]; simpl; [done|by rewrite IH]. Qed.

Lemma str_app_nil_r (a : string) : a +:+ "" = a.
Proof. induction a as [|x a IH]; simpl; [done|by rewrite IH]. Qed.

Lemma str_length_app (a b : string) :
  String.length (a +:+ b) = (String.length a + String.length b)%nat.
Proof. induction a as [|x a IH]; simpl; [done|by rewrite IH]. Qed.

Lemma rev_app_app (a b c : string) :
  String.rev_app a b +:+ c = String.rev_app a (b +:+ c).
Proof. revert b. induction a as [|x a IH]; intros b; simpl; [done|by rewrite IH]. Qed.

Lemma strip_prefix_Some (p s r : string) :
  strip_prefix p s = Some r ↔ s = p +:+ r.
Proof.
  revert s. induction p as [|a p IH]; intros s; simpl.
  - split; congruence.
  - destruct s as [|b s]; [done|].
    destruct (Ascii.eqb_spec a b) as [->|Hne].
    + rewrite IH. split; congruence.
    + split; congruence.
Qed.

Lemma contains_true (sep s : string) :
  contains sep s = true ↔ ∃ pre r, s = pre +:+ sep +:+ r.
Proof.
  induction s as [|c s IH].
  - simpl. destruct (strip_prefix sep "") as [r|] eqn:Hp.
    + apply strip_prefix_Some in Hp. split; [|done]. by exists "", r.
    + split; [done|]. intros ([|] & r & Hs); [|done].
      simpl in Hs. apply strip_prefix_Some in Hs. congruence.
  - cbn [contains]. destruct (strip_prefix sep (String c s)) as [r|] eqn:Hp.
    + apply strip_prefix_Some in Hp. split; [|done]. by exists "", r.
    + rewrite IH. split.
      * intros (pre & r & ->). by exists (String c pre), r.
      * intros ([|c' pre] & r & Hs).
        -- simpl in Hs. apply strip_prefix_Some in Hs. congruence.
        -- simpl in Hs. injection Hs as -> ->. by exists pre, r.
Qed.

Lemma contains_false (sep s pre r : string) :
  contains sep s = false → s ≠ pre +:+ sep +:+ r.
Proof.
  intros Hc Hs. assert (contains sep s = true) as Ht; [|congruence].
  apply contains_true. by exists pre, r.
Qed.

(** Cutting [a +:+ b = c +:+ d] when [a] is no longer than [c]. *)
Lemma app_eq_app_le (a b c d : string) :
  a +:+ b = c +:+ d → (String.length a ≤ String.length c)%nat →
  ∃ c', c = a +:+ c' ∧ b = c' +:+ d.
Proof.
  revert c. induction a as [|x a IH]; intros c Heq Hlen.
  - by exists c.
  - destruct c as [|y c]; [simpl in Hlen; lia|].
    simpl in *. injection Heq as -> Heq.
    destruct (IH c Heq) as (c' & -> & ->); [lia|]. by exists c'.
Qed.

Lemma session_unbordered : unbordered "session_".
Proof.
  intros rest pre r Heq.
  do 8 (destruct pre as [|? pre]; [by left|];
        simpl in Heq; injection Heq as <- Heq; try discriminate Heq).
  right. simpl. lia.
Qed.

Lemma split_from_nonempty (fuel : nat) (sep cur s : string) :
  split_from fuel sep cur s ≠ [].
Proof.
  revert cur s. induction fuel as [|fuel IH]; intros cur s; simpl; [done|].
  destruct s as [|c s]; [done|].
  destruct (strip_prefix sep (String c s)); [done|apply IH].
Qed.

Lemma last_piece_cons (x : string) (l : list string) :
  l ≠ [] → last_piece (x :: l) = last_piece l.
Proof. by destruct l. Qed.

Lemma split_from_no_sep (fuel : nat) (sep cur s : string) :
  contains sep s = false →
  split_from fuel sep cur s = [String.rev cur +:+ s].
Proof.
  revert cur s. induction fuel as [|fuel IH]; intros cur s Hc; simpl; [done|].
  destruct s as [|c s]; [by rewrite str_app_nil_r|].
  cbn [contains] in Hc.
  destruct (strip_prefix sep (String c s)); [done|].
  rewrite IH by done. unfold String.rev. simpl.
  by rewrite !rev_app_app.
Qed.

Lemma split_from_last (sep : string) :
  sep ≠ "" → unbordered sep →
  ∀ fuel cur s,
    (String.length s ≤ fuel)%nat → contains sep s = true →
    after_last sep s (last_piece (split_from fuel sep cur s)).
Proof.
  intros Hsep Hunb.
  assert (∀ r, "" ≠ sep +:+ r) as Hnil.
  { intros r Hr. destruct sep; [done|discriminate]. }
  induction fuel as [|fuel IH]; intros cur s Hlen Hc.
  - destruct s; [|simpl in Hlen; lia].
    apply contains_true in Hc as ([|] & r & Hs); [|done]. by destruct (Hnil r).
  - destruct s as [|c s].
    { apply contains_true in Hc as ([|] & r & Hs); [|done]. by destruct (Hnil r). }
    cbn [split_from]. cbn [contains] in Hc.
    destruct (strip_prefix sep (String c s)) as [rest|] eqn:Hp.
    + apply strip_prefix_Some in Hp.
      assert (String.length rest ≤ fuel)%nat as Hrest.
      { apply (f_equal String.length) in Hp. rewrite str_length_app in Hp.
        destruct sep; [done|]. simpl in *. lia. }
      rewrite last_piece_cons by apply split_from_nonempty.
      destruct (contains sep rest) eqn:Hcr.
      * destruct (IH "" rest Hrest Hcr) as (pre & Hs & Hmax).
        exists (sep +:+ pre). split.
        { by rewrite Hp, Hs at 1; rewrite !str_app_assoc. }
        intros pre' r' Hocc. rewrite Hp in Hocc.
        destruct (Hunb _ _ _ Hocc) as [->|Hge]; [simpl; lia|].
        destruct (app_eq_app_le _ _ _ _ Hocc Hge) as (pre'' & -> & Hrest').
        specialize (Hmax _ _ Hrest'). rewrite !str_length_app. lia.
      * rewrite split_from_no_sep by done. cbn.
        exists "". split; [by rewrite Hp|].
        intros pre' r' Hocc. rewrite Hp in Hocc.
        destruct (Hunb _ _ _ Hocc) as [->|Hge]; [done|].
        destruct (app_eq_app_le _ _ _ _ Hocc Hge) as (pre'' & -> & Hrest').
        by destruct (contains_false _ _ _ _ Hcr Hrest').
    + simpl in Hlen.
      destruct (IH (String c cur) s ltac:(lia) Hc) as (pre & Hs & Hmax).
      exists (String c pre). split; [simpl; by rewrite Hs at 1|].
      intros [|c' pre'] r' Hocc; [simpl; lia|].
      simpl in Hocc. injection Hocc as -> Hocc.
      specialize (Hmax _ _ Hocc). simpl. lia.
Qed.

Lemma split_session_last (s : string) :
  contains "session_" s = true →
  after_last "session_" s (last_piece (split "session_" s)).
Proof.
  intros Hc. apply split_from_last; [done|apply session_unbordered|done|done].
Qed.

Section Str.
Context `{Repr}.

(** What [str] prints for a falsy value never holds the marker. *)
Lemma falsy_no_session (v : value) :
  truthy v = false → contains "session_" (str v) = false.
Proof.
  destruct v as [|[]|n|s|[|]|[|]]; simpl; try done.
  - intros Hn. apply negb_false_iff, Z.eqb_eq in Hn. by subst.
  - intros Hs. apply negb_false_iff, String.eqb_eq in Hs. by subst.
Qed.

End Str.
End StringFacts.

(** ** The session-id resolver and the grouping by session *)

Module ResolverFacts.
Import Py Trace QueryTraces Examples PyFacts StringFacts.

Section Facts.
Context `{Repr}.

Lemma session_suffix_match (v : value) :
  contains "session_" (str v) = true →
  session_suffix (Some v) = Some (last_piece (split "session_" (str v))).
Proof.
  intros Hc. unfold session_suffix. rewrite Hc.
  destruct (truthy v) eqn:Ht; [done|].
  apply falsy_no_session in Ht. congruence.
Qed.

Lemma dict_get_nonempty (k : string) (items : list (string * value)) (v : value) :
  dict_get k items = Some v → truthy (VDict items) = true.
Proof. by destruct items. Qed.

(** C2.  When the metadata of a row is a dict whose [user_id] entry,
    printed by [str], holds the text [session_], the resolver of
    [query_traces.py] returns what follows the last occurrence of that
    text, whatever the other two lookup places hold; the metadata
    [{user_id: abc_session_42}] resolves to [42].  The resolver of
    [reconstruct_sessions.py] does not read the [user_id] entry: its
    answer is the same on every dict with the same other entries, and on
    the metadata [{user_id: abc_session_42}] it returns [None]. *)
Theorem user_id_first `{ReconstructSessions.Numpy} (row : span)
    (items : list (string * value)) (v : value) :
  metadata row = Some (VDict items) →
  dict_get "user_id" items = Some v →
  contains "session_" (str v) = true →
  (∃ sid, extract_session_id row = Some sid
          ∧ after_last "session_" (str v) sid)
  ∧ (∀ row', metadata row' = Some (VDict [("user_id", VStr "abc_session_42")]) →
             extract_session_id row' = Some "42")
  ∧ (∀ items', (∀ k, k ≠ "user_id" → dict_get k items' = dict_get k items) →
       ReconstructSessions.extract_session_id (Some (VDict items'))
       = ReconstructSessions.extract_session_id (Some (VDict items)))
  ∧ ReconstructSessions.extract_session_id
      (Some (VDict [("user_id", VStr "abc_session_42")]))
    = ReconstructSessions.Returns None.
Proof.
  intros Hmeta Hget Hc. split; [|split; [|split]].
  - exists (last_piece (split "session_" (str v))). split.
    + unfold extract_session_id. rewrite Hmeta.
      rewrite (dict_get_nonempty _ _ _ Hget). cbn [negb].
      by rewrite Hget, session_suffix_match.
    + by apply split_session_last.
  - intros row' Hmeta'. unfold extract_session_id. by rewrite Hmeta'.
  - intros items' Hsame. unfold ReconstructSessions.extract_session_id.
    by rewrite !Hsame.
  - done.
Qed.

(** The key of a row: the id resolved from its metadata, and only when
    there is none the trace id. *)
Lemma extract_session_id_resolve (row : span) :
  extract_session_id row
  = match resolve row with
    | Some sid => Some sid
    | None => trace_id_or_unknown row
    end.
Proof.
  unfold extract_session_id, resolve.
  destruct (metadata row) as [[| | | | |items]|]; try done.
  destruct items as [|kv items]; [done|]. cbn [truthy negb].
  by repeat case_match.
Qed.

Lemma foldl_insert_notin {V} (l : list (string * V)) (m : gmap string V)
    (k : string) :
  k ∉ l.*1 →
  foldl (λ grouped g, <[g.1 := g.2]> grouped) m l !! k = m !! k.
Proof.
  revert m. induction l as [|p l IH]; intros m Hk; [done|].
  rewrite fmap_cons in Hk. apply not_elem_of_cons in Hk as [Hne Hk].
  cbn [foldl]. rewrite IH by done. by rewrite lookup_insert_ne.
Qed.

Lemma foldl_insert_in {V} (l : list (string * V)) (m : gmap string V)
    (k : string) (v : V) :
  NoDup (l.*1) → (k, v) ∈ l →
  foldl (λ grouped g, <[g.1 := g.2]> grouped) m l !! k = Some v.
Proof.
  revert m. induction l as [|p l IH]; intros m Hnd Hin;
    [by apply elem_of_nil in Hin|].
  rewrite fmap_cons in Hnd. apply NoDup_cons in Hnd as [Hp Hnd].
  cbn [foldl]. apply elem_of_cons in Hin as [<-|Hin].
  - rewrite foldl_insert_notin by done. apply lookup_insert_eq.
  - by apply IH.
Qed.

Lemma groupby_keys (key : span → option string) (df : list span) :
  (groupby key df).*1 = merge_sort String.le (remove_dups (omap key df)).
Proof.
  unfold groupby. rewrite <- list_fmap_compose.
  rewrite <- (list_fmap_id (merge_sort _ _)) at 2. by apply list_fmap_ext.
Qed.

Lemma groupby_key_elem (key : span → option string) (df : list span) (k : string) :
  k ∈ (groupby key df).*1 ↔ k ∈ omap key df.
Proof. by rewrite groupby_keys, merge_sort_Permutation, elem_of_remove_dups. Qed.

Lemma groupby_NoDup (key : span → option string) (df : list span) :
  NoDup ((groupby key df).*1).
Proof.
  rewrite groupby_keys, merge_sort_Permutation. apply NoDup_remove_dups.
Qed.

(** The sessions of a frame: under each key that occurs, the rows with
    that key, in frame order. *)
Lemma group_by_session_lookup (df : list span) (k : string) :
  group_by_session df !! k
  = if decide (k ∈ omap extract_session_id df)
    then Some (filter (λ row, extract_session_id row = Some k) df)
    else None.
Proof.
  assert (foldl (λ grouped g, <[g.1 := g.2]> grouped) (∅ : gmap string (list span))
            (groupby extract_session_id df) !! k
          = if decide (k ∈ omap extract_session_id df)
            then Some (filter (λ row, extract_session_id row = Some k) df)
            else None) as Hfold.
  { case_decide as Hk.
    - apply foldl_insert_in; [apply groupby_NoDup|].
      unfold groupby. apply list_elem_of_fmap.
      exists k. split; [done|].
      by rewrite merge_sort_Permutation, elem_of_remove_dups.
    - rewrite foldl_insert_notin; [done|]. by rewrite groupby_key_elem. }
  destruct df as [|row df]; [|exact Hfold].
  cbn [group_by_session]. rewrite lookup_empty.
  case_decide as Hk; [|done]. by apply elem_of_nil in Hk.
Qed.

(** C3, as amended.  The session key of a row is the id resolved from
    its metadata by the first lookup step that matches, taken as it is,
    and the trace id of the row when no step matches.  A row with a key
    lies in the session stored under that key and in no other one, and
    that session holds exactly the rows of the frame that have this key,
    in frame order.  A row with a null key lies in no session. *)
Theorem session_partition (df : list span) (row : span) :
  row ∈ df →
  extract_session_id row
  = match resolve row with
    | Some sid => Some sid
    | None => trace_id_or_unknown row
    end
  ∧ (∀ k, extract_session_id row = Some k →
       group_by_session df !! k
       = Some (filter (λ row', extract_session_id row' = Some k) df)
       ∧ row ∈ filter (λ row', extract_session_id row' = Some k) df)
  ∧ (∀ k rows, group_by_session df !! k = Some rows →
       rows = filter (λ row', extract_session_id row' = Some k) df
       ∧ (row ∈ rows ↔ extract_session_id row = Some k)).
Proof.
  intros Hrow. split; [apply extract_session_id_resolve|split].
  - intros k Hk. split.
    + rewrite group_by_session_lookup. rewrite decide_True; [done|].
      apply list_elem_of_omap. eauto.
    + by apply list_elem_of_filter.
  - intros k rows. rewrite group_by_session_lookup.
    case_decide; [|done]. intros [= <-]. split; [done|].
    rewrite list_elem_of_filter. tauto.
Qed.

End Facts.

(** C2, on the metadata of the example. *)
Lemma user_id_first_witness :
  ∃ sid, extract_session_id (H := sample_repr) row_session_42 = Some sid
         ∧ after_last "session_" "abc_session_42" sid.
Proof.
  refine (proj1 (user_id_first (H := sample_repr)
           (H0 := ReconstructSessions.numpy_from_2_2) row_session_42
           [("user_id", VStr "abc_session_42")] (VStr "abc_session_42")
           _ _ _)); reflexivity.
Defined.

(** C2 as stated fails for the resolver of [reconstruct_sessions.py]: it
    is a different function without a lookup step for the [user_id]
    entry of the metadata, and returns [None] on the metadata of the
    example, with either numpy. *)
Lemma reconstruct_resolver_skips_user_id :
  metadata row_session_42 = Some (VDict [("user_id", VStr "abc_session_42")])
  ∧ ReconstructSessions.extract_session_id
      (H := ReconstructSessions.numpy_from_2_2) (metadata row_session_42)
    = ReconstructSessions.Returns None
  ∧ ReconstructSessions.extract_session_id
      (H := ReconstructSessions.numpy_before_2_2) (metadata row_session_42)
    = ReconstructSessions.Returns None
  ∧ extract_session_id (H := sample_repr) row_session_42 = Some "42".
Proof. repeat split. Qed.

(** C3 as stated fails in two ways.  An id resolved as the empty string
    is used as the key although the row has a trace id; and a row with
    neither a resolved id nor a trace id is dropped from the sessions. *)
Lemma session_key_counterexample :
  resolve (H := sample_repr) row_empty_id = Some ""
  ∧ trace_id row_empty_id = Val "T1"
  ∧ extract_session_id (H := sample_repr) row_empty_id = Some ""
  ∧ group_by_session (H := sample_repr) [row_empty_id] !! "T1" = None
  ∧ extract_session_id (H := sample_repr) row_no_key = None
  ∧ ∀ k, group_by_session (H := sample_repr) [row_no_key] !! k = None.
Proof.
  split; [reflexivity|]. split; [reflexivity|]. split; [reflexivity|].
  split; [|split; [reflexivity|]].
  - rewrite group_by_session_lookup. apply decide_False.
    intros Hk. apply list_elem_of_omap in Hk as (row & Hrow & Hk).
    apply list_elem_of_singleton in Hrow as ->. discriminate Hk.
  - intros k. rewrite group_by_session_lookup. apply decide_False.
    intros Hk. apply list_elem_of_omap in Hk as (row & Hrow & Hk).
    apply list_elem_of_singleton in Hrow as ->. discriminate Hk.
Qed.

(** C3 as amended, on a frame of three rows. *)
Lemma session_partition_witness :
  group_by_session (H := sample_repr)
    [row_session_42; row_trace_only; row_no_key] !! "42"
  = Some [row_session_42].
Proof.
  refine (_ (proj1 (proj1 (proj2 (session_partition (H := sample_repr)
            [row_session_42; row_trace_only; row_no_key] row_session_42 _))
            "42" _))).
  - intros ->. reflexivity.
  - by left.
  - reflexivity.
Defined.

End ResolverFacts.

(** ** The span tree *)

Module TreeFacts.
Import Py Trace ReconstructSessions Examples Aux.

Lemma for_roots_for_children (subtree : string → nat → option (list line))
    (roots : list span) :
  for_roots subtree roots = for_children subtree 0 roots.
Proof. induction roots as [|r roots IH]; simpl; [done|by rewrite IH]. Qed.

Lemma for_children_ext (f g : string → nat → option (list line))
    (indent : nat) (cs : list span) :
  (∀ x i, f x i = g x i) →
  for_children f indent cs = for_children g indent cs.
Proof.
  intros Hfg. induction cs as [|c cs IH]; simpl; [done|].
  by rewrite Hfg, IH.
Qed.

Lemma for_roots_ext (f g : string → nat → option (list line))
    (roots : list span) :
  (∀ x i, f x i = g x i) → for_roots f roots = for_roots g roots.
Proof.
  intros Hfg. rewrite !for_roots_for_children. by apply for_children_ext.
Qed.

(** [print_tree] and [build_span_tree] are one walk. *)
Lemma print_tree_build_span_tree (fuel : nat) (df : list span) (x : string)
    (indent : nat) :
  AnalyzeSessions.print_tree fuel df x indent = build_span_tree fuel df x indent.
Proof.
  revert x indent. induction fuel as [|fuel IH]; intros x indent; [done|].
  simpl. by apply for_children_ext.
Qed.

Section Tree.
Variable df : list span.
Hypothesis ids_unique : NoDup (span_id <$> df).

Lemma span_id_inj (s s' : span) :
  s ∈ df → s' ∈ df → span_id s = span_id s' → s = s'.
Proof. intros. by apply (NoDup_fmap_elem_inj span_id df). Qed.

Lemma rooted_in (s : span) (n : nat) : rooted df s n → s ∈ df.
Proof. by destruct 1. Qed.

Lemma rooted_parent (s p : span) (n : nat) :
  rooted df s n → p ∈ df → parent_id s = Some (span_id p) →
  ∃ m, n = S m ∧ rooted df p m.
Proof.
  intros Hs Hp Hpar. destruct Hs as [s _ Hnone|s p' m _ Hpar' Hp']; [congruence|].
  exists m. split; [done|].
  assert (p' = p) as <-; [|done].
  apply span_id_inj; [by eapply rooted_in|done|congruence].
Qed.

Lemma rooted_functional (s : span) (n m : nat) :
  rooted df s n → rooted df s m → n = m.
Proof.
  intros Hn. revert m. induction Hn as [s _ Hnone|s p n Hs Hpar Hp IH]; intros m Hm.
  - destruct Hm; [done|congruence].
  - destruct (rooted_parent _ _ _ Hm (rooted_in _ _ Hp) Hpar) as (m' & -> & Hm').
    f_equal. by apply IH.
Qed.

Lemma reaches_trans (a b c : span) :
  reaches df a b → reaches df b c → reaches df a c.
Proof.
  induction 1 as [s|s p a Hs Hp Hpar _ IH]; [done|].
  intros Hbc. apply (reaches_step _ s p c); auto.
Qed.

Lemma reaches_depth (s a : span) (n : nat) :
  reaches df s a → rooted df s n → ∃ m, (m ≤ n)%nat ∧ rooted df a m.
Proof.
  intros Hr. revert n. induction Hr as [s|s p a Hs Hp Hpar _ IH]; intros n Hn.
  - by exists n.
  - destruct (rooted_parent _ _ _ Hn Hp Hpar) as (m & -> & Hm).
    destruct (IH _ Hm) as (m' & Hle & Hm'). exists m'. split; [lia|done].
Qed.

(** A row has one ancestor per depth. *)
Lemma reaches_unique (s a1 a2 : span) (m : nat) :
  reaches df s a1 → reaches df s a2 → rooted df a1 m → rooted df a2 m →
  a1 = a2.
Proof.
  intros H1. revert a2.
  induction H1 as [s|s p a1 Hs Hp Hpar H1 IH]; intros a2 H2 Hm1 Hm2.
  - destruct H2 as [s|s p a2 _ Hp Hpar H2]; [done|].
    destruct (rooted_parent _ _ _ Hm1 Hp Hpar) as (m' & -> & Hm').
    destruct (reaches_depth _ _ _ H2 Hm') as (k & Hle & Hk).
    pose proof (rooted_functional _ _ _ Hk Hm2). lia.
  - destruct H2 as [s|s p' a2 _ Hp' Hpar' H2].
    + destruct (rooted_parent _ _ _ Hm2 Hp Hpar) as (m' & -> & Hm').
      destruct (reaches_depth _ _ _ H1 Hm') as (k & Hle & Hk).
      pose proof (rooted_functional _ _ _ Hk Hm1). lia.
    + assert (p' = p) as -> by (apply span_id_inj; [done..|congruence]).
      by apply IH.
Qed.

Lemma descends_reaches (x s : span) : descends df x s → reaches df s x.
Proof. intros (p & Hs & Hp & Hpar & Hr). by apply (reaches_step _ s p x). Qed.

Lemma reaches_descends (x s : span) :
  reaches df s x → s = x ∨ descends df x s.
Proof. destruct 1 as [s|s p a Hs Hp Hpar Hr]; [by left|right]. by exists p. Qed.

Lemma descends_irrefl (c : span) (m : nat) : rooted df c m → ¬ descends df c c.
Proof.
  intros Hm (p & Hc & Hp & Hpar & Hr).
  destruct (rooted_parent _ _ _ Hm Hp Hpar) as (m' & -> & Hm').
  destruct (reaches_depth _ _ _ Hr Hm') as (k & Hle & Hk).
  pose proof (rooted_functional _ _ _ Hk Hm). lia.
Qed.

(** The last step of a chain of parent references that ends in [x]. *)
Lemma reaches_last (p x : span) :
  reaches df p x →
  p = x ∨ ∃ c, c ∈ df ∧ x ∈ df ∧ parent_id c = Some (span_id x) ∧ reaches df p c.
Proof.
  induction 1 as [s|s p a Hs Hp Hpar Hr IH]; [by left|right].
  destruct IH as [->|(c & Hc & Hx & Hcx & Hpc)].
  - exists s. repeat split; [done..|constructor].
  - exists c. repeat split; [done..|]. by apply (reaches_step _ s p c).
Qed.

Lemma child_descends (x c s : span) :
  c ∈ df → x ∈ df → parent_id c = Some (span_id x) →
  reaches df s c → descends df x s.
Proof.
  intros Hc Hx Hcx Hr.
  assert (reaches df c x) as Hcr
    by (apply (reaches_step _ c x x); [done..|constructor]).
  destruct (reaches_descends _ _ Hr) as [->|(p & Hs & Hp & Hpar & Hpc)].
  - exists x. repeat split; [done..|constructor].
  - exists p. repeat split; [done..|]. by apply (reaches_trans p c x).
Qed.

Lemma rooted_reaches_root (s : span) (n : nat) :
  rooted df s n →
  ∃ r, r ∈ df ∧ parent_id r = None ∧ reaches df s r.
Proof.
  induction 1 as [s Hs Hnone|s p n Hs Hpar Hp (r & Hr & Hnone & Hpr)].
  - exists s. repeat split; [done..|constructor].
  - exists r. repeat split; [done..|].
    apply (reaches_step _ s p r); [done|by eapply rooted_in|done..].
Qed.

(** The rows on the way from a row at depth [n] to its root are [n + 1]
    different rows of the frame. *)
Lemma rooted_chain (s : span) (n : nat) :
  rooted df s n →
  ∃ l : list span,
    length l = S n ∧ NoDup l
    ∧ ∀ y, y ∈ l → y ∈ df ∧ ∃ m, (m ≤ n)%nat ∧ rooted df y m.
Proof.
  induction 1 as [s Hs Hnone|s p n Hs Hpar Hp (l & Hlen & Hnd & Hl)].
  - exists [s]. split; [done|split; [apply NoDup_singleton|]].
    intros y ->%list_elem_of_singleton. split; [done|].
    exists 0%nat. split; [done|by constructor].
  - assert (rooted df s (S n)) as Hsn by (by eapply rooted_child).
    exists (s :: l). split; [simpl; by rewrite Hlen|split].
    + apply NoDup_cons. split; [|done]. intros Hin.
      destruct (Hl _ Hin) as (_ & m & Hle & Hm).
      pose proof (rooted_functional _ _ _ Hm Hsn). lia.
    + intros y [->|Hy]%elem_of_cons.
      * split; [done|]. by exists (S n).
      * destruct (Hl _ Hy) as (Hydf & m & Hle & Hm).
        split; [done|]. exists m. split; [lia|done].
Qed.

Lemma rooted_bound (s : span) (n : nat) : rooted df s n → (n < length df)%nat.
Proof.
  intros (l & Hlen & Hnd & Hl)%rooted_chain.
  assert (l ⊆+ df) as Hsub by (apply NoDup_submseteq; [done|]; intros y Hy; by apply Hl).
  apply submseteq_length in Hsub. lia.
Qed.

Lemma children_elem (x : string) (c : span) :
  c ∈ sort_values (filter (λ s, parent_id s = Some x) df)
  ↔ c ∈ df ∧ parent_id c = Some x.
Proof.
  unfold sort_values. rewrite merge_sort_Permutation, list_elem_of_filter. tauto.
Qed.

Lemma frame_NoDup : NoDup df.
Proof. by eapply NoDup_fmap_1. Qed.

Lemma children_NoDup (x : string) :
  NoDup (sort_values (filter (λ s, parent_id s = Some x) df)).
Proof.
  unfold sort_values. rewrite merge_sort_Permutation.
  apply NoDup_filter, frame_NoDup.
Qed.

(** The loop over rows of one depth [m]. *)
Lemma level_ok (subtree : string → nat → option (list line)) (m : nat)
    (cs : list span) :
  NoDup cs →
  (∀ c, c ∈ cs → rooted df c m) →
  (∀ c, c ∈ cs →
     ∃ sub, subtree (span_id c) (S m) = Some sub ∧ subtree_of df c sub) →
  ∃ lines,
    for_children subtree m cs = Some lines
    ∧ NoDup (spans_of lines)
    ∧ (∀ l, l ∈ lines →
         rooted df (line_span l) (line_indent l)
         ∧ ∃ c, c ∈ cs ∧ reaches df (line_span l) c)
    ∧ (∀ c, c ∈ cs →
         c ∈ spans_of lines ∧ ∀ s, descends df c s → s ∈ spans_of lines).
Proof.
  induction cs as [|c cs IH]; intros Hnd Hdepth Hsub.
  - exists []. split; [done|split; [apply NoDup_nil_2|split]];
      intros ? Hin; by apply elem_of_nil in Hin.
  - apply NoDup_cons in Hnd as [Hc Hnd].
    destruct (Hsub c) as (sub & Hcall & Hsnd & Hslines & Hsall); [by left|].
    destruct IH as (more & Hmore & Hmnd & Hmlines & Hmall);
      [done|intros; apply Hdepth; by right|intros; apply Hsub; by right|].
    exists ({| line_indent := m; line_span := c |} :: sub ++ more).
    assert (rooted df c m) as Hcm by (apply Hdepth; by left).
    assert (∀ s, s ∈ spans_of more → reaches df s c → False) as Hsep.
    { intros s Hs Hsc. apply list_elem_of_fmap in Hs as (l & -> & Hl).
      destruct (Hmlines _ Hl) as (_ & c' & Hc' & Hsc').
      assert (c = c') as <-; [|done].
      apply (reaches_unique (line_span l) c c' m); [done..|].
      apply Hdepth. by right. }
    split; [|split; [|split]].
    + cbn [for_children]. rewrite Hcall. cbn. by rewrite Hmore.
    + unfold spans_of. rewrite fmap_cons, fmap_app. cbn [line_span].
      apply NoDup_cons. split.
      * rewrite elem_of_app. intros [Hin|Hin].
        -- apply list_elem_of_fmap in Hin as (l & -> & Hl).
           destruct (Hslines _ Hl) as [_ Hd].
           by apply (descends_irrefl _ _ Hcm).
        -- apply (Hsep c Hin). constructor.
      * apply NoDup_app. split; [done|split; [|done]].
        intros s Hs Hs'. apply (Hsep s Hs').
        apply list_elem_of_fmap in Hs as (l & -> & Hl).
        apply descends_reaches. by apply Hslines.
    + intros l Hl. apply elem_of_cons in Hl as [->|Hl].
      * split; [done|]. exists c. split; [by left|constructor].
      * apply elem_of_app in Hl as [Hl|Hl].
        -- destruct (Hslines _ Hl) as [Hroot Hd]. split; [done|].
           exists c. split; [by left|by apply descends_reaches].
        -- destruct (Hmlines _ Hl) as (Hroot & c' & Hc' & Hr).
           split; [done|]. exists c'. split; [by right|done].
    + intros c' Hc'. unfold spans_of. rewrite fmap_cons, fmap_app.
      apply elem_of_cons in Hc' as [->|Hc'].
      * split; [by left|]. intros s Hs. right. apply elem_of_app.
        left. by apply Hsall.
      * destruct (Hmall _ Hc') as [Hin Hall]. split.
        -- right. apply elem_of_app. by right.
        -- intros s Hs. right. apply elem_of_app. right. by apply Hall.
Qed.

(** The recursion below a row of depth [n] comes back as soon as the
    fuel covers the rows the frame has left below that depth. *)
Lemma build_span_tree_ok (fuel : nat) (x : span) (n : nat) :
  rooted df x n → (length df ≤ fuel + n)%nat →
  ∃ lines,
    build_span_tree fuel df (span_id x) (S n) = Some lines
    ∧ subtree_of df x lines.
Proof.
  revert x n. induction fuel as [|fuel IH]; intros x n Hx Hfuel.
  { apply rooted_bound in Hx. simpl in Hfuel. lia. }
  cbn [build_span_tree].
  pose proof (rooted_in _ _ Hx) as Hxin.
  destruct (level_ok (build_span_tree fuel df) (S n)
              (sort_values (filter (λ s, parent_id s = Some (span_id x)) df)))
    as (lines & Hcall & Hnd & Hlines & Hall).
  - apply children_NoDup.
  - intros c [Hc Hpar]%children_elem. by eapply rooted_child.
  - intros c [Hc Hpar]%children_elem. apply IH; [by eapply rooted_child|lia].
  - exists lines. split; [done|]. split; [done|split].
    + intros l Hl. destruct (Hlines _ Hl) as (Hroot & c & Hc & Hr).
      split; [done|]. apply children_elem in Hc as [Hc Hpar].
      by apply (child_descends x c).
    + intros s (p & Hs & Hp & Hpar & Hr).
      destruct (reaches_last _ _ Hr) as [->|(c & Hc & _ & Hcx & Hpc)].
      * apply Hall. by apply children_elem.
      * assert (c ∈ sort_values (filter (λ s, parent_id s = Some (span_id x)) df))
          as Hcin by (by apply children_elem).
        apply (Hall _ Hcin). by exists p.
Qed.

Lemma roots_forest (fuel : nat) (roots : list span) :
  roots ≡ₚ filter (λ s, parent_id s = None) df →
  (length df ≤ fuel)%nat →
  ∃ lines,
    for_roots (build_span_tree fuel df) roots = Some lines
    ∧ forest_of df lines.
Proof.
  intros Hroots Hfuel. rewrite for_roots_for_children.
  assert (∀ r, r ∈ roots ↔ r ∈ df ∧ parent_id r = None) as Hroot.
  { intros r. rewrite Hroots, list_elem_of_filter. tauto. }
  destruct (level_ok (build_span_tree fuel df) 0 roots)
    as (lines & Hcall & Hnd & Hlines & Hall).
  - rewrite Hroots. apply NoDup_filter, frame_NoDup.
  - intros r [Hr Hnone]%Hroot. by constructor.
  - intros r [Hr Hnone]%Hroot.
    apply build_span_tree_ok; [by constructor|lia].
  - exists lines. split; [done|]. split; [done|].
    assert (∀ l, l ∈ lines → rooted df (line_span l) (line_indent l)) as Hdepth
      by (intros l Hl; by apply Hlines).
    split; [done|split].
    + intros s n Hs.
      destruct (rooted_reaches_root _ _ Hs) as (r & Hr & Hnone & Hsr).
      assert (r ∈ roots) as Hrin by (by apply Hroot).
      destruct (Hall _ Hrin) as [Hin Hdesc].
      destruct (reaches_descends _ _ Hsr) as [->|Hd]; [done|by apply Hdesc].
    + intros s Hcyc Hin. apply list_elem_of_fmap in Hin as (l & -> & Hl).
      by apply (descends_irrefl _ _ (Hdepth _ Hl)).
Qed.

(** C1, as amended.  On a frame whose span ids are pairwise distinct
    the hierarchy is printed with any recursion depth of at least the
    number of rows, whatever the parent references are, both by
    [build_span_tree] under the roots of a trace and by [print_tree]
    under the roots of a session.  No row is shown twice; every line
    shows a row whose chain of parent references ends at a null parent,
    at the indentation of its depth, and every such row is shown.  A row
    that lies on a cycle of parent references, a row that is its own
    parent included, is never shown. *)
Theorem span_hierarchy_forest (fuel : nat) :
  (length df ≤ fuel)%nat →
  (∃ lines,
     span_hierarchy fuel df = Some lines
     ∧ NoDup (spans_of lines)
     ∧ (∀ l, l ∈ lines → rooted df (line_span l) (line_indent l))
     ∧ (∀ s n, rooted df s n → s ∈ spans_of lines)
     ∧ (∀ s, descends df s s → s ∉ spans_of lines))
  ∧ (∃ lines,
       AnalyzeSessions.span_tree fuel df = Some lines ∧ forest_of df lines).
Proof.
  intros Hfuel. split.
  - destruct (roots_forest fuel (filter (λ s, parent_id s = None) df))
      as (lines & Hrun & Hforest); [done..|].
    by exists lines.
  - destruct (roots_forest fuel
                (sort_values (filter (λ s, parent_id s = None) df)))
      as (lines & Hrun & Hforest);
      [apply merge_sort_Permutation|done|].
    exists lines. split; [|done].
    unfold AnalyzeSessions.span_tree. rewrite <- Hrun.
    apply for_roots_ext. intros x i. apply print_tree_build_span_tree.
Qed.

End Tree.

(** C1 as stated fails.  A row that is its own parent is not turned into
    a root: it has no null [parent_id], so the loop over the roots never
    sees it, and the printed hierarchy of the frame is empty. *)
Lemma self_parent_not_shown :
  NoDup (span_id <$> [self_parent])
  ∧ parent_id self_parent = Some (span_id self_parent)
  ∧ span_hierarchy 1 [self_parent] = Some []
  ∧ self_parent ∉ spans_of [].
Proof.
  split; [apply NoDup_singleton|]. split; [reflexivity|].
  split; [reflexivity|]. apply not_elem_of_nil.
Qed.

(** The recursion itself has no guard against a cycle: started at a row
    that is its own parent it does not come back, whatever the depth
    allowed. *)
Lemma build_span_tree_self_parent (fuel indent : nat) :
  build_span_tree fuel [self_parent] "a" indent = None.
Proof.
  revert indent. induction fuel as [|fuel IH]; intros indent; [done|].
  cbn [build_span_tree].
  change (sort_values (filter (λ s, parent_id s = Some "a") [self_parent]))
    with [self_parent].
  cbn [for_children]. change (span_id self_parent) with "a".
  by rewrite IH.
Qed.

(** When two rows share a span id, a root among them leads the printed
    hierarchy into such a cycle. *)
Lemma span_hierarchy_twin_frame (fuel : nat) :
  span_hierarchy fuel twin_frame = None.
Proof.
  assert (∀ fuel indent, build_span_tree fuel twin_frame "a" indent = None)
    as Hloop.
  { clear fuel. induction fuel as [|fuel IH]; intros indent; [done|].
    cbn [build_span_tree].
    change (sort_values (filter (λ s, parent_id s = Some "a") twin_frame))
      with [node "a" (Some "a") 1].
    cbn [for_children]. change (span_id (node "a" (Some "a") 1)) with "a".
    by rewrite IH. }
  unfold span_hierarchy.
  change (filter (λ s, parent_id s = None) twin_frame) with [node "a" None 0].
  cbn [for_roots]. change (span_id (node "a" None 0)) with "a".
  by rewrite Hloop.
Qed.

(** C1 as amended, on a root with one child next to a row that is its
    own parent. *)
Lemma span_hierarchy_forest_witness :
  ∃ lines, span_hierarchy 3 tree_frame = Some lines ∧ NoDup (spans_of lines).
Proof.
  assert (NoDup (span_id <$> tree_frame)) as Hids.
  { apply (bool_decide_unpack _). vm_compute. exact I. }
  assert (length tree_frame ≤ 3)%nat as Hfuel by (simpl; lia).
  destruct (span_hierarchy_forest tree_frame Hids 3 Hfuel)
    as [(lines & Hrun & Hnd & _) _].
  exists lines. split; [exact Hrun|exact Hnd].
Defined.

End TreeFacts.

(** ** Further properties of the containment / diff analyzer *)

Module AnalyzerFacts.
Import Py CompareSpans Examples Aux PyFacts.

Lemma filter_split_length {A} (P : A → Prop) `{∀ x, Decision (P x)} (l : list A) :
  (length (filter P l) + length (filter (λ x, ¬ P x) l) = length l)%nat.
Proof.
  induction l as [|x l IH]; [done|].
  rewrite !filter_cons. destruct (decide (P x)) as [HP|HP].
  - rewrite decide_False by tauto. simpl. lia.
  - rewrite decide_True by done. simpl. lia.
Qed.

Lemma filter_nil_iff {A} (P : A → Prop) `{∀ x, Decision (P x)} (l : list A) :
  filter P l = [] ↔ ∀ x, x ∈ l → ¬ P x.
Proof.
  split.
  - intros Hnil x Hx HP.
    assert (x ∈ filter P l) as Hin by (by apply list_elem_of_filter).
    rewrite Hnil in Hin. by apply elem_of_nil in Hin.
  - intros Hall. apply filter_all_false. by apply Forall_forall.
Qed.

Lemma percentage_le_100 (a b : nat) :
  (a ≤ b)%nat → (0 < b)%nat → (0 <= percentage a b)%Q ∧ (percentage a b <= 100)%Q.
Proof.
  intros Hab Hb. unfold percentage, Qle. simpl.
  rewrite Pos.mul_1_r, Zpos_of_nat by done. lia.
Qed.

Lemma percentage_100_iff (a b : nat) :
  (0 < b)%nat → (percentage a b == 100)%Q ↔ a = b.
Proof.
  intros Hb. unfold percentage, Qeq. simpl.
  rewrite Pos.mul_1_r, Zpos_of_nat by done. lia.
Qed.

Section Facts.
Context `{Repr}.

(** X1.  The containment check splits the earlier messages into the
    contained and the missing ones: the two counts add up to the number
    of earlier messages, and the missing count is the length of the list
    of missing messages the result carries. *)
Theorem containment_counts_partition (earlier later : option (list value)) :
  (contained_count (check_complete_containment earlier later)
   + missing_count (check_complete_containment earlier later)
   = total_earlier (check_complete_containment earlier later))%nat
  ∧ missing_count (check_complete_containment earlier later)
    = length (missing_messages (check_complete_containment earlier later))
  ∧ total_earlier (check_complete_containment earlier later)
    = length (default [] earlier).
Proof.
  unfold check_complete_containment. cbn.
  split; [apply filter_split_length|]. split; [done|].
  unfold canonical_list. by rewrite length_fmap.
Qed.

Lemma missing_nil_iff (earlier later : option (list value)) :
  missing_messages (check_complete_containment earlier later) = []
  ↔ ∀ m, m ∈ canonical_list earlier → m ∈ canonical_list later.
Proof.
  unfold check_complete_containment. cbn. rewrite filter_nil_iff.
  split; intros Hall m Hm.
  - destruct (decide (m ∈ canonical_list later)) as [|Hn]; [done|].
    by destruct (Hall m Hm).
  - intros Hn. by apply Hn, Hall.
Qed.

(** When the containment check answers "complete subset". *)
Lemma is_complete_subset_spec (earlier later : option (list value)) :
  is_complete_subset (check_complete_containment earlier later) = true
  ↔ default [] earlier ≠ []
    ∧ ∀ m, m ∈ default [] earlier →
           canonical m ∈ canonical <$> default [] later.
Proof.
  pose proof (missing_nil_iff earlier later) as Hmiss.
  unfold check_complete_containment in *.
  cbn [is_complete_subset missing_messages] in *.
  rewrite andb_true_iff, Nat.eqb_eq, Nat.ltb_lt, length_zero_iff_nil, Hmiss.
  unfold canonical_list. rewrite length_fmap.
  split; intros [H1 H2].
  - split; [destruct (default [] earlier); [simpl in H2; lia|done]|].
    intros m Hm. apply H1. by apply list_elem_of_fmap_2.
  - split.
    + intros s (m & -> & Hm)%list_elem_of_fmap. by apply H2.
    + destruct (default [] earlier); [done|simpl; lia].
Qed.

(** X2.  The containment check answers "complete subset" exactly when
    the earlier list has at least one message and the canonical text of
    every earlier message occurs among the canonical texts of the later
    list. *)
Theorem complete_subset_iff (earlier later : option (list value)) :
  is_complete_subset (check_complete_containment earlier later) = true
  ↔ default [] earlier ≠ []
    ∧ ∀ m, m ∈ default [] earlier →
           canonical m ∈ canonical <$> default [] later.
Proof. apply is_complete_subset_spec. Qed.

(** X3.  The containment percentage always lies between 0 and 100, and
    it is 100 exactly when the check answers "complete subset". *)
Theorem containment_percentage_range (earlier later : option (list value)) :
  (0 <= containment_percentage (check_complete_containment earlier later))%Q
  ∧ (containment_percentage (check_complete_containment earlier later) <= 100)%Q
  ∧ ((containment_percentage (check_complete_containment earlier later) == 100)%Q
     ↔ is_complete_subset (check_complete_containment earlier later) = true).
Proof.
  pose proof (filter_split_length (λ m, m ∈ canonical_list later)
                (canonical_list earlier)) as Hsplit.
  unfold check_complete_containment.
  cbn [is_complete_subset containment_percentage].
  rewrite andb_true_iff, Nat.eqb_eq, Nat.ltb_lt.
  destruct (canonical_list earlier) as [|m l] eqn:Hl.
  - split; [done|]. split; [done|]. split; [done|]. simpl. lia.
  - rewrite <- Hl in *.
    assert (0 < length (canonical_list earlier))%nat as Hpos
      by (rewrite Hl; simpl; lia).
    split; [|split].
    + apply percentage_le_100; [|done].
      apply length_filter.
    + apply percentage_le_100; [|done]. apply length_filter.
    + rewrite percentage_100_iff by done. lia.
Qed.

(** X4.  Complete containment is transitive: when a first list is
    completely contained in a second one and the second in a third, the
    first is completely contained in the third. *)
Theorem complete_subset_trans (a b c : option (list value)) :
  is_complete_subset (check_complete_containment a b) = true →
  is_complete_subset (check_complete_containment b c) = true →
  is_complete_subset (check_complete_containment a c) = true.
Proof.
  rewrite !is_complete_subset_spec. intros [Ha Hab] [_ Hbc]. split; [done|].
  intros m Hm. specialize (Hab m Hm).
  apply list_elem_of_fmap in Hab as (m' & -> & Hm'). by apply Hbc.
Qed.

(** X5.  Accumulated context: when the later list repeats the whole
    earlier list and appends further messages, a non-empty earlier list
    is completely contained, every earlier message counts as duplicated,
    and the new messages are the appended ones whose canonical text did
    not occur earlier. *)
Theorem accumulated_context (earlier extra : list value) :
  earlier ≠ [] →
  is_complete_subset
    (check_complete_containment (Some earlier) (Some (earlier ++ extra))) = true
  ∧ duplicated_count (compare_messages (Some earlier) (Some (earlier ++ extra)))
    = length earlier
  ∧ new_messages (compare_messages (Some earlier) (Some (earlier ++ extra)))
    = filter (λ m, m ∉ canonical <$> earlier) (canonical <$> extra).
Proof.
  intros Hne. split; [|split].
  - apply is_complete_subset_spec. split; [done|]. intros m Hm. cbn.
    rewrite fmap_app, elem_of_app. left. by apply list_elem_of_fmap_2.
  - unfold compare_messages. cbn. unfold canonical_list. cbn.
    rewrite filter_all_true, length_fmap; [done|].
    apply Forall_forall. intros m Hm. rewrite fmap_app, elem_of_app. by left.
  - unfold compare_messages. cbn. unfold canonical_list. cbn.
    rewrite fmap_app, filter_app.
    rewrite (filter_all_false (λ m, m ∉ canonical <$> earlier) (canonical <$> earlier));
      [done|].
    apply Forall_forall. intros m Hm Hn. by apply Hn.
Qed.

(** X6.  When no two earlier messages have the same canonical text, the
    overlap percentage does not exceed 100. *)
Theorem overlap_percentage_at_most_100 (earlier later : option (list value)) :
  NoDup (canonical_list earlier) →
  (overlap_percentage (compare_messages earlier later) <= 100)%Q.
Proof.
  intros Hnd. unfold compare_messages. cbn.
  destruct (canonical_list later) as [|m l] eqn:Hl; [done|].
  rewrite <- Hl. apply percentage_le_100; [|rewrite Hl; simpl; lia].
  apply submseteq_length, NoDup_submseteq; [by apply NoDup_filter|].
  by intros x [Hx _]%list_elem_of_filter.
Qed.

(** X7.  Every message of a list is either new with respect to another
    list or a duplicate of one of its messages: the new count of a
    comparison and the duplicated count of the comparison in the opposite
    direction add up to the length of the list. *)
Theorem new_and_duplicated_split (a b : option (list value)) :
  (new_count (compare_messages a b) + duplicated_count (compare_messages b a)
   = total_current (compare_messages a b))%nat.
Proof.
  unfold compare_messages. cbn.
  pose proof (filter_split_length (λ m, m ∈ canonical_list a) (canonical_list b)).
  lia.
Qed.

(** X8.  The counts do not depend on the order of the messages: after
    permuting the earlier and the later list, the comparison reports the
    same duplicated count, new count and overlap percentage, and the
    containment check the same answer and counts. *)
Theorem counts_under_permutation (earlier earlier' later later' : list value) :
  earlier ≡ₚ earlier' → later ≡ₚ later' →
  duplicated_count (compare_messages (Some earlier) (Some later))
  = duplicated_count (compare_messages (Some earlier') (Some later'))
  ∧ new_count (compare_messages (Some earlier) (Some later))
    = new_count (compare_messages (Some earlier') (Some later'))
  ∧ overlap_percentage (compare_messages (Some earlier) (Some later))
    = overlap_percentage (compare_messages (Some earlier') (Some later'))
  ∧ is_complete_subset (check_complete_containment (Some earlier) (Some later))
    = is_complete_subset (check_complete_containment (Some earlier') (Some later'))
  ∧ missing_count (check_complete_containment (Some earlier) (Some later))
    = missing_count (check_complete_containment (Some earlier') (Some later')).
Proof.
  intros He Hl.
  assert (canonical <$> earlier ≡ₚ canonical <$> earlier') as He'
    by (by apply fmap_Permutation).
  assert (canonical <$> later ≡ₚ canonical <$> later') as Hl'
    by (by apply fmap_Permutation).
  assert (∀ (k k' l l' : list string), k ≡ₚ k' → l ≡ₚ l' →
            length (filter (λ m, m ∈ l) k) = length (filter (λ m, m ∈ l') k'))
    as Hin.
  { intros k k' l l' Hk Hll.
    rewrite (filter_ext_in (λ m, m ∈ l) (λ m, m ∈ l') k)
      by (intros m _; by rewrite Hll).
    apply Permutation_length. by rewrite Hk. }
  assert (∀ (k k' l l' : list string), k ≡ₚ k' → l ≡ₚ l' →
            length (filter (λ m, m ∉ l) k) = length (filter (λ m, m ∉ l') k'))
    as Hout.
  { intros k k' l l' Hk Hll.
    rewrite (filter_ext_in (λ m, m ∉ l) (λ m, m ∉ l') k)
      by (intros m _; by rewrite Hll).
    apply Permutation_length. by rewrite Hk. }
  assert (length (canonical <$> later) = length (canonical <$> later')) as Hlen
    by (by apply Permutation_length).
  assert (length (canonical <$> earlier) = length (canonical <$> earlier')) as Hlen'
    by (by apply Permutation_length).
  unfold compare_messages, check_complete_containment, canonical_list. cbn.
  rewrite (Hin _ _ _ _ He' Hl'), (Hout _ _ _ _ Hl' He'), (Hout _ _ _ _ He' Hl'),
    Hlen'.
  repeat split.
  destruct (canonical <$> later) as [|x k], (canonical <$> later') as [|x' k'];
    simpl in Hlen; try done. simpl length. by rewrite Hlen.
Qed.

End Facts.

(** X5, on the two turns of the scenario. *)
Lemma accumulated_context_witness :
  duplicated_count
    (compare_messages (H := sample_repr) (Some turn1)
       (Some (turn1 ++ [msg_assistant_hello])))
  = length turn1.
Proof.
  refine (proj1 (proj2 (accumulated_context (H := sample_repr) turn1
                          [msg_assistant_hello] _))).
  discriminate.
Defined.

(** X4, on the first turn, the second turn and the second turn again. *)
Lemma complete_subset_trans_witness :
  is_complete_subset
    (check_complete_containment (H := sample_repr) (Some turn1) (Some turn2))
  = true.
Proof.
  apply (complete_subset_trans (H := sample_repr) (Some turn1) (Some turn2)
           (Some turn2)); reflexivity.
Defined.

(** X6, on the second turn against the first. *)
Lemma overlap_percentage_at_most_100_witness :
  (overlap_percentage
     (compare_messages (H := sample_repr) (Some turn2) (Some turn1)) <= 100)%Q.
Proof.
  apply (overlap_percentage_at_most_100 (H := sample_repr)).
  apply (bool_decide_unpack _). vm_compute. exact I.
Defined.

(** X8, on the second turn and its two messages in the other order. *)
Lemma counts_under_permutation_witness :
  duplicated_count
    (compare_messages (H := sample_repr) (Some turn2) (Some turn1))
  = duplicated_count
      (compare_messages (H := sample_repr)
         (Some [msg_assistant_hello; msg_user_hi]) (Some turn1)).
Proof.
  refine (proj1 (counts_under_permutation (H := sample_repr) turn2
                   [msg_assistant_hello; msg_user_hi] turn1 turn1 _ _)).
  - apply perm_swap.
  - reflexivity.
Defined.

End AnalyzerFacts.

(** ** Further properties of the temporal segmenter *)

Module SegmentationFacts.
Import Py Trace ReconstructSessions Examples.

Lemma unbroken_snoc (threshold : Z) (seg : list span) (row : span) :
  unbroken threshold seg →
  (∀ a, last seg = Some a → breaks threshold a row = false) →
  unbroken threshold (seg ++ [row]).
Proof.
  induction seg as [|a seg IH]; intros Hseg Hlast; [done|].
  destruct seg as [|b seg].
  - simpl. split; [by apply Hlast|done].
  - destruct Hseg as [Hab Hseg]. split; [done|].
    apply IH; [done|]. intros c Hc. by apply Hlast.
Qed.

Lemma separated_snoc (threshold : Z) (segs : list (list span)) (seg : list span) :
  separated threshold segs →
  (∀ s1, last segs = Some s1 →
     ∃ a b, last s1 = Some a ∧ head seg = Some b ∧ breaks threshold a b = true) →
  separated threshold (segs ++ [seg]).
Proof.
  induction segs as [|s1 segs IH]; intros Hsep Hlast; [done|].
  destruct segs as [|s2 segs].
  - simpl. split; [by apply Hlast|done].
  - destruct Hsep as [H12 Hsep]. split; [done|].
    apply IH; [done|]. intros s Hs. by apply Hlast.
Qed.

(** Appending a row to the last segment keeps the segments separated. *)
Lemma separated_extend_last (threshold : Z) (segs : list (list span))
    (seg : list span) (row : span) :
  seg ≠ [] →
  separated threshold (segs ++ [seg]) →
  separated threshold (segs ++ [seg ++ [row]]).
Proof.
  intros Hne. induction segs as [|s1 segs IH]; intros Hsep; [done|].
  destruct segs as [|s2 segs].
  - destruct Hsep as [(a & b & Ha & Hb & Hab) _]. split; [|done].
    exists a, b. split; [done|]. split; [|done]. by destruct seg.
  - destruct Hsep as [H12 Hsep]. split; [done|]. by apply IH.
Qed.

Lemma count_breaks_snoc (threshold : Z) (df : list span) (row : span) :
  count_breaks threshold (df ++ [row])
  = (count_breaks threshold df
     + match last df with
       | Some a => if breaks threshold a row then 1 else 0
       | None => 0
       end)%nat.
Proof.
  induction df as [|a df IH]; [done|].
  destruct df as [|b df]; [simpl; lia|].
  change (count_breaks threshold ((a :: b :: df) ++ [row]))
    with ((if breaks threshold a b then 1 else 0)
          + count_breaks threshold ((b :: df) ++ [row]))%nat.
  rewrite IH. simpl. lia.
Qed.

Lemma close_current_nonempty (st : scan) :
  current_conversation st ≠ [] →
  close_current st = conversations st ++ [current_conversation st].
Proof. unfold close_current. by destruct (current_conversation st). Qed.

Lemma last_concat_app (segs : list (list span)) (cur : list span) :
  cur ≠ [] → last (concat segs ++ cur) = last cur.
Proof.
  intros Hne. destruct cur as [|x cur _] using rev_ind; [done|].
  by rewrite app_assoc, !last_snoc.
Qed.

Lemma scanned_start (threshold : Z) : scanned threshold [] scan_start.
Proof. by split. Qed.

Lemma scanned_step (threshold : Z) (seen : list span) (st : scan) (row : span) :
  scanned threshold seen st →
  scanned threshold (seen ++ [row]) (scan_row threshold st row).
Proof.
  intros [Hcat Hne Hcur Hlast [Hunb Hunbc] Hsep Hcount].
  assert (last (seen ++ [row]) = Some row) as Hlast' by apply last_snoc.
  assert (match seen ++ [row] with [] => 0 | _ => 1 end = 1)%nat as Hone
    by (by destruct seen).
  destruct seen as [|x seen' _] using rev_ind.
  - (* first row *)
    assert (conversations st = [] ∧ current_conversation st = []) as [Hc0 Hc1].
    { apply app_eq_nil in Hcat as [Hcat ->]. split; [|done].
      destruct (conversations st) as [|seg segs]; [done|].
      apply Forall_cons in Hne as [Hseg _]. simpl in Hcat.
      apply app_eq_nil in Hcat as [-> _]. done. }
    unfold scan_row. rewrite Hlast. cbn.
    split; cbn; rewrite ?Hc0, ?Hc1; done.
  - (* a row after [x] *)
    set (seen := seen' ++ [x]) in *.
    assert (seen ≠ []) as Hseen by (unfold seen; by destruct seen').
    specialize (Hcur Hseen).
    assert (last seen = Some x) as Hx by apply last_snoc.
    assert (last (current_conversation st) = Some x) as Hcx.
    { rewrite <- Hx, <- Hcat. symmetry. by apply last_concat_app. }
    rewrite Hx in *. cbn in Hlast.
    rewrite (close_current_nonempty st Hcur) in Hsep, Hcount.
    assert (match seen with [] => 0 | _ => 1 end = 1)%nat as Hone'
      by (by destruct seen).
    rewrite Hone' in Hcount. rewrite length_app in Hcount. cbn in Hcount.
    unfold scan_row. rewrite Hlast.
    change (exceeds (gap_seconds (start_time row) (end_time x)) threshold)
      with (breaks threshold x row).
    destruct (breaks threshold x row) eqn:Hbreak.
    + rewrite (close_current_nonempty st Hcur).
      split; cbn.
      * by rewrite concat_app, <- Hcat; cbn; rewrite app_nil_r.
      * apply Forall_app. split; [done|]. by apply Forall_singleton.
      * done.
      * by rewrite Hlast'.
      * split; [|done]. apply Forall_app. split; [done|].
        by apply Forall_singleton.
      * unfold close_current. cbn. apply separated_snoc; [done|].
        intros s1 Hs1. rewrite last_snoc in Hs1. injection Hs1 as <-.
        by exists x, row.
      * unfold close_current. cbn. rewrite !length_app. cbn.
        rewrite count_breaks_snoc, Hx, Hbreak, Hone. lia.
    + split; cbn.
      * by rewrite app_assoc, Hcat.
      * done.
      * intros _. by destruct (current_conversation st).
      * by rewrite Hlast'.
      * split; [done|]. apply unbroken_snoc; [done|].
        intros a Ha. rewrite Hcx in Ha. by injection Ha as <-.
      * rewrite close_current_nonempty
          by (cbn; by destruct (current_conversation st)).
        cbn. by apply separated_extend_last.
      * rewrite close_current_nonempty
          by (cbn; by destruct (current_conversation st)).
        cbn. rewrite length_app. cbn.
        rewrite count_breaks_snoc, Hx, Hbreak, Hone. lia.
Qed.

Lemma scanned_all (threshold : Z) (df : list span) :
  scanned threshold df (foldl (scan_row threshold) scan_start df).
Proof.
  induction df as [|row df IH] using rev_ind; [apply scanned_start|].
  rewrite foldl_app. cbn. by apply scanned_step.
Qed.

Lemma close_current_concat (st : scan) :
  concat (close_current st) = concat (conversations st) ++ current_conversation st.
Proof.
  unfold close_current. destruct (current_conversation st) as [|x cur].
  - by rewrite app_nil_r.
  - by rewrite concat_app; cbn; rewrite app_nil_r.
Qed.

(** X9.  The segments are a split of the frame: put one after the other
    they give back the rows of the frame in their order, and no segment
    is empty. *)
Theorem segments_split_frame (df : list span) (threshold : Z) :
  concat (detect_conversation_boundaries df threshold) = df
  ∧ Forall (λ seg, seg ≠ []) (detect_conversation_boundaries df threshold).
Proof.
  destruct (scanned_all threshold df) as [Hcat Hne _ _ _ _ _].
  unfold detect_conversation_boundaries. split.
  - by rewrite close_current_concat.
  - unfold close_current.
    destruct (current_conversation _) as [|x cur] eqn:Hc; [done|].
    apply Forall_app. split; [done|]. by apply Forall_singleton.
Qed.

(** X10.  The cuts are exactly where the gap test succeeds: inside a
    segment no row is separated from the row before it by the test, and
    the last row of each segment is separated by it from the first row
    of the next. *)
Theorem segments_cut_at_gaps (df : list span) (threshold : Z) :
  Forall (unbroken threshold) (detect_conversation_boundaries df threshold)
  ∧ separated threshold (detect_conversation_boundaries df threshold).
Proof.
  destruct (scanned_all threshold df) as [_ _ _ _ [Hunb Hunbc] Hsep _].
  unfold detect_conversation_boundaries. split; [|done].
  unfold close_current.
  destruct (current_conversation _) as [|x cur] eqn:Hc; [done|].
  apply Forall_app. split; [done|]. by apply Forall_singleton.
Qed.

Lemma breaks_mono (t1 t2 : Z) (a b : span) :
  t1 ≤ t2 → breaks t2 a b = true → breaks t1 a b = true.
Proof.
  intros Hle. unfold breaks, exceeds.
  destruct (gap_seconds _ _) as [g|]; [|done].
  rewrite !negb_true_iff. intros H2.
  destruct (Qle_bool g (inject_Z t1)) eqn:H1; [|done].
  apply Qle_bool_iff in H1.
  assert (Qle_bool g (inject_Z t2) = true) as H2'; [|congruence].
  apply Qle_bool_iff. eapply Qle_trans; [exact H1|].
  unfold Qle. simpl. lia.
Qed.

Lemma count_breaks_mono (t1 t2 : Z) (df : list span) :
  t1 ≤ t2 → (count_breaks t2 df ≤ count_breaks t1 df)%nat.
Proof.
  intros Hle. induction df as [|a df IH]; [done|].
  destruct df as [|b df]; [done|].
  change (count_breaks t2 (a :: b :: df))
    with ((if breaks t2 a b then 1 else 0) + count_breaks t2 (b :: df))%nat.
  change (count_breaks t1 (a :: b :: df))
    with ((if breaks t1 a b then 1 else 0) + count_breaks t1 (b :: df))%nat.
  destruct (breaks t2 a b) eqn:H2.
  - rewrite (breaks_mono t1 t2 a b Hle H2). lia.
  - destruct (breaks t1 a b); lia.
Qed.

(** X11.  A non-empty frame gives one segment more than it has
    neighbouring rows separated by the gap test (an empty frame gives
    none), and raising the threshold never gives more segments. *)
Theorem segment_count (df : list span) (t1 t2 : Z) :
  t1 ≤ t2 →
  length (detect_conversation_boundaries df t1)
  = (count_breaks t1 df + match df with [] => 0 | _ => 1 end)%nat
  ∧ (length (detect_conversation_boundaries df t2)
     ≤ length (detect_conversation_boundaries df t1))%nat.
Proof.
  intros Hle.
  destruct (scanned_all t1 df) as [_ _ _ _ _ _ H1].
  destruct (scanned_all t2 df) as [_ _ _ _ _ _ H2].
  unfold detect_conversation_boundaries. split; [done|].
  rewrite H1, H2. pose proof (count_breaks_mono t1 t2 df Hle). lia.
Qed.

(** X11, on the three rows 301 seconds apart with thresholds of 300 and
    of 400 seconds. *)
Lemma segment_count_witness :
  (length (detect_conversation_boundaries rows_far 400)
   ≤ length (detect_conversation_boundaries rows_far 300))%nat.
Proof.
  apply (segment_count rows_far 300 400). lia.
Defined.

End SegmentationFacts.

(** ** Further properties of the resolver and of the sessions *)

Module SessionFacts.
Import Py Trace QueryTraces Examples Aux PyFacts StringFacts ResolverFacts.

Local Arguments String.append !_ _ / : simpl nomatch.

(** What follows the last occurrence of a separator does not hold the
    separator. *)
Lemma after_last_no_sep (sep s r : string) :
  sep ≠ "" → after_last sep s r → contains sep r = false.
Proof.
  intros Hsep (pre & Hs & Hmax).
  destruct (contains sep r) eqn:Hc; [|done].
  apply contains_true in Hc as (pre' & r' & ->).
  assert (String.length (pre +:+ sep +:+ pre') ≤ String.length pre)%nat as Hle.
  { apply (Hmax _ r'). by rewrite Hs, !str_app_assoc. }
  rewrite !str_length_app in Hle.
  destruct sep; [done|]. simpl in Hle. lia.
Qed.

Section Facts.
Context `{Repr}.

Lemma session_suffix_after_last (user_id : option value) (sid : string) :
  session_suffix user_id = Some sid →
  ∃ v, user_id = Some v ∧ after_last "session_" (str v) sid.
Proof.
  unfold session_suffix. destruct user_id as [v|]; [|done].
  destruct (truthy v); [|done]. cbn.
  destruct (contains "session_" (str v)) eqn:Hc; [|done].
  intros [= <-]. exists v. split; [done|]. by apply split_session_last.
Qed.

(** X12.  An id resolved from the metadata never holds the marker
    [session_] itself: it is the text behind the last marker of the
    value it was taken from. *)
Theorem resolved_id_without_marker (row : span) (sid : string) :
  resolve row = Some sid → contains "session_" sid = false.
Proof.
  unfold resolve. intros Hres.
  assert (∃ u, session_suffix u = Some sid) as [u Hu].
  { destruct (metadata row) as [[| | | | |items]|]; try done.
    repeat case_match; simplify_eq; eauto. }
  apply session_suffix_after_last in Hu as (v & _ & Hlast).
  by apply (after_last_no_sep "session_" (str v)).
Qed.

(** The dict of sessions holds the groups of the frame. *)
Lemma group_by_session_list_to_map (df : list span) :
  group_by_session df = list_to_map (groupby extract_session_id df).
Proof.
  apply map_eq. intros k. rewrite group_by_session_lookup.
  case_decide as Hk.
  - symmetry. apply elem_of_list_to_map; [apply groupby_NoDup|].
    unfold groupby. apply list_elem_of_fmap. exists k. split; [done|].
    by rewrite merge_sort_Permutation, elem_of_remove_dups.
  - symmetry. apply not_elem_of_list_to_map_1. by rewrite groupby_key_elem.
Qed.

Lemma sum_list_cons (x : nat) (l : list nat) :
  sum_list (x :: l) = (x + sum_list l)%nat.
Proof. done. Qed.

Lemma indicator_sum (keys : list string) (k0 : string) :
  NoDup keys → k0 ∈ keys →
  sum_list ((λ k, if decide (k0 = k) then 1 else 0)%nat <$> keys) = 1%nat.
Proof.
  induction keys as [|k keys IH]; intros Hnd Hin; [by apply elem_of_nil in Hin|].
  apply NoDup_cons in Hnd as [Hk Hnd]. rewrite fmap_cons, sum_list_cons.
  destruct (decide (k0 = k)) as [->|Hne].
  - enough (sum_list ((λ k', if decide (k = k') then 1 else 0)%nat <$> keys) = 0%nat)
      as -> by done.
    clear IH Hin Hnd. induction keys as [|k' keys IH]; [done|].
    apply not_elem_of_cons in Hk as [Hne Hk].
    rewrite fmap_cons, sum_list_cons, decide_False by done. by rewrite IH.
  - apply elem_of_cons in Hin as [->|Hin]; [done|]. by rewrite IH.
Qed.

Lemma group_sizes_cons (key : span → option string) (keys : list string)
    (row : span) (df : list span) :
  sum_list ((λ k, length (filter (λ row', key row' = Some k) (row :: df))) <$> keys)
  = (sum_list ((λ k, if decide (key row = Some k) then 1 else 0)%nat <$> keys)
     + sum_list ((λ k, length (filter (λ row', key row' = Some k) df)) <$> keys))%nat.
Proof.
  induction keys as [|k keys IHk]; [done|].
  rewrite !fmap_cons, !sum_list_cons, IHk, filter_cons.
  destruct (decide (key row = Some k)); cbn; lia.
Qed.

Lemma indicator_sum_key (keys : list string) (o : option string) :
  NoDup keys → (∀ k, o = Some k → k ∈ keys) →
  sum_list ((λ k, if decide (o = Some k) then 1 else 0)%nat <$> keys)
  = length (option_list o).
Proof.
  intros Hnd Hin. destruct o as [k0|].
  - etrans; [|apply (indicator_sum keys k0 Hnd (Hin _ eq_refl))].
    f_equal. apply list_fmap_ext. intros _ k _.
    destruct (decide (Some k0 = Some k)) as [[= ->]|Hne].
    + by rewrite decide_True.
    + rewrite decide_False; [done|]. by intros ->.
  - clear. induction keys as [|k keys IH]; [done|].
    rewrite fmap_cons, sum_list_cons, IH. by destruct (decide (None = Some k)).
Qed.

Lemma group_sizes_sum (key : span → option string) (keys : list string)
    (df : list span) :
  NoDup keys →
  (∀ row k, row ∈ df → key row = Some k → k ∈ keys) →
  sum_list ((λ k, length (filter (λ row, key row = Some k) df)) <$> keys)
  = length (omap key df).
Proof.
  intros Hnd. induction df as [|row df IH]; intros Hkeys.
  - cbn. clear. induction keys as [|k keys IH]; [done|].
    by rewrite fmap_cons, sum_list_cons, IH.
  - etrans; [apply group_sizes_cons|].
    rewrite IH by (intros r k Hr; apply Hkeys; by right).
    rewrite (indicator_sum_key keys (key row) Hnd)
      by (intros k Hk; apply (Hkeys row); [by left|done]).
    cbn. by destruct (key row).
Qed.

(** The totals of a grouped frame, from the keys of its rows. *)
Lemma session_totals_keys (df : list span) :
  session_totals (group_by_session df)
  = match omap extract_session_id df with
    | [] => None
    | keys => Some (length keys, length (remove_dups keys))
    end.
Proof.
  rewrite group_by_session_list_to_map. unfold session_totals.
  pose proof (groupby_NoDup extract_session_id df) as Hnd.
  assert (length (groupby extract_session_id df)
          = length (remove_dups (omap extract_session_id df))) as Hlen.
  { unfold groupby. rewrite length_fmap.
    apply Permutation_length, merge_sort_Permutation. }
  case_decide as Hempty.
  - apply (f_equal size) in Hempty.
    rewrite map_size_list_to_map, map_size_empty, Hlen in Hempty by done.
    destruct (omap extract_session_id df) as [|k keys]; [done|].
    apply length_zero_iff_nil in Hempty.
    assert (k ∈ remove_dups (k :: keys)) as Hin
      by (apply elem_of_remove_dups; by left).
    rewrite Hempty in Hin. by apply elem_of_nil in Hin.
  - destruct (omap extract_session_id df) as [|k keys] eqn:Hkeys.
    { destruct Hempty. unfold groupby. by rewrite Hkeys. }
    rewrite <- Hkeys. f_equal. f_equal.
    + rewrite (map_to_list_to_map _ Hnd). unfold groupby.
      rewrite <- !list_fmap_compose.
      rewrite <- (group_sizes_sum extract_session_id
                    (merge_sort String.le (remove_dups (omap extract_session_id df)))).
      * done.
      * rewrite merge_sort_Permutation. apply NoDup_remove_dups.
      * intros row k' Hrow Hk'.
        rewrite merge_sort_Permutation, elem_of_remove_dups.
        apply list_elem_of_omap. eauto.
    + rewrite map_size_list_to_map by done. by rewrite Hlen, Hkeys.
Qed.

(** X13.  The headline printed for the sessions of a frame counts every
    row that has a session key once, and every distinct key once; it is
    left out when no row of the frame has a key. *)
Theorem session_totals_of_frame (df : list span) :
  session_totals (group_by_session df)
  = match omap extract_session_id df with
    | [] => None
    | keys => Some (length keys, length (remove_dups keys))
    end.
Proof. apply session_totals_keys. Qed.

Lemma keyed_when_traced (row : span) :
  trace_id row ≠ NA → is_Some (extract_session_id row).
Proof.
  intros Htrace. rewrite extract_session_id_resolve.
  destruct (resolve row); [done|].
  unfold trace_id_or_unknown. by destruct (trace_id row).
Qed.

(** X14.  When no row of the frame has a null trace id, every row has a
    session key and lies in the session stored under it, and the
    headline counts all rows of the frame. *)
Theorem traced_rows_all_grouped (df : list span) (row : span) :
  (∀ row', row' ∈ df → trace_id row' ≠ NA) → row ∈ df →
  (∃ k rows, extract_session_id row = Some k
             ∧ group_by_session df !! k = Some rows ∧ row ∈ rows)
  ∧ ∃ sessions, session_totals (group_by_session df)
                = Some (length df, sessions).
Proof.
  intros Htraced Hrow. split.
  - destruct (keyed_when_traced row (Htraced _ Hrow)) as [k Hk].
    exists k, (filter (λ row', extract_session_id row' = Some k) df).
    split; [done|]. split.
    + rewrite group_by_session_lookup, decide_True; [done|].
      apply list_elem_of_omap. eauto.
    + by apply list_elem_of_filter.
  - rewrite session_totals_keys.
    assert (length (omap extract_session_id df) = length df) as Hlen.
    { clear Hrow. induction df as [|r df IH]; [done|]. cbn.
      destruct (keyed_when_traced r) as [k ->]; [apply Htraced; by left|].
      cbn. f_equal. apply IH. intros r' Hr'. apply Htraced. by right. }
    destruct (omap extract_session_id df) as [|k keys] eqn:Hkeys.
    + destruct df; [by apply elem_of_nil in Hrow|done].
    + rewrite <- Hlen. eauto.
Qed.

(** X15.  Querying by session id and grouping the answer: every row of
    the answer carries the queried trace id, and when none of them has
    an id that resolves from its metadata, the answer forms the single
    session stored under the queried id (no session at all when the
    answer is empty, as after a failed client call). *)
Theorem query_by_session_id_grouped (fetched : option (list span))
    (session_id : string) :
  (∀ row, row ∈ query_by_session_id fetched session_id → resolve row = None) →
  (∀ row, row ∈ query_by_session_id fetched session_id →
          trace_id row = Val session_id)
  ∧ group_by_session (query_by_session_id fetched session_id)
    = match query_by_session_id fetched session_id with
      | [] => ∅
      | rows => {[ session_id := rows ]}
      end
  ∧ group_by_session (query_by_session_id None session_id) = ∅.
Proof.
  intros Hnone.
  assert (∀ row, row ∈ query_by_session_id fetched session_id →
                 trace_id row = Val session_id) as Htrace.
  { intros row. unfold query_by_session_id.
    destruct fetched as [[|r df]|]; try (by intros ?%elem_of_nil).
    by intros [? _]%list_elem_of_filter. }
  split; [done|]. split; [|done].
  set (rows := query_by_session_id fetched session_id) in *.
  assert (∀ row, row ∈ rows → extract_session_id row = Some session_id) as Hkey.
  { intros row Hrow. rewrite extract_session_id_resolve, (Hnone _ Hrow).
    unfold trace_id_or_unknown. by rewrite (Htrace _ Hrow). }
  destruct rows as [|r rows'] eqn:Hrows; [done|]. rewrite <- Hrows in *.
  apply map_eq. intros k. rewrite group_by_session_lookup.
  destruct (decide (k = session_id)) as [->|Hne].
  - rewrite lookup_singleton_eq, decide_True.
    + f_equal. apply filter_all_true. by apply Forall_forall.
    + apply list_elem_of_omap. exists r. split; [|apply Hkey]; rewrite Hrows; by left.
  - rewrite lookup_singleton_ne by done. apply decide_False.
    intros (row & Hrow & Hk)%list_elem_of_omap.
    rewrite (Hkey _ Hrow) in Hk. congruence.
Qed.

End Facts.

(** X12, on the row of the example. *)
Lemma resolved_id_without_marker_witness :
  contains "session_" "42" = false.
Proof.
  apply (resolved_id_without_marker (H := sample_repr) row_session_42).
  reflexivity.
Defined.

(** X14, on two rows with a trace id. *)
Lemma traced_rows_all_grouped_witness :
  ∃ sessions,
    session_totals (group_by_session (H := sample_repr)
                      [row_session_42; row_trace_only])
    = Some (2%nat, sessions).
Proof.
  refine (proj2 (traced_rows_all_grouped (H := sample_repr)
                   [row_session_42; row_trace_only] row_session_42 _ _)).
  - intros row' [->|[->|Hin]%elem_of_cons]%elem_of_cons; [done..|].
    by apply elem_of_nil in Hin.
  - by left.
Defined.

(** X15, on a fetched frame of two rows without session metadata. *)
Lemma query_by_session_id_grouped_witness :
  group_by_session (H := sample_repr)
    (query_by_session_id (Some [row_trace_only; row_no_key]) "T1")
  = {[ "T1" := [row_trace_only] ]}.
Proof.
  refine (proj1 (proj2 (query_by_session_id_grouped (H := sample_repr)
                          (Some [row_trace_only; row_no_key]) "T1" _))).
  intros row ->%list_elem_of_singleton. reflexivity.
Defined.

End SessionFacts.

(** ** Time ranges, the frames of the traces, and the two resolvers *)

Module TraceFacts.
Import Py Trace ReconstructSessions Examples Aux.

Lemma min_time_le (column : list (option Z)) (s : Z) :
  Some s ∈ column → ∃ m, min_time column = Some m ∧ m ≤ s.
Proof.
  induction column as [|t column IH]; intros Hin; [by apply elem_of_nil in Hin|].
  apply elem_of_cons in Hin as [<-|Hin]; cbn.
  - destruct (min_time column) as [y|]; eexists; split; try done; lia.
  - destruct (IH Hin) as (m & -> & Hm).
    destruct t as [x|]; eexists; split; try done; lia.
Qed.

Lemma max_time_ge (column : list (option Z)) (e : Z) :
  Some e ∈ column → ∃ m, max_time column = Some m ∧ e ≤ m.
Proof.
  induction column as [|t column IH]; intros Hin; [by apply elem_of_nil in Hin|].
  apply elem_of_cons in Hin as [<-|Hin]; cbn.
  - destruct (max_time column) as [y|]; eexists; split; try done; lia.
  - destruct (IH Hin) as (m & -> & Hm).
    destruct t as [x|]; eexists; split; try done; lia.
Qed.

(** X16.  The duration printed for a frame is at least the duration of
    each of its rows that carries both timestamps; it is therefore not
    negative as soon as one such row does not end before it starts. *)
Theorem frame_duration_covers (df : list span) (row : span) (s e : Z) :
  row ∈ df → start_time row = Some s → end_time row = Some e →
  (duration_seconds (start_time row) (end_time row) <= frame_duration df)%Q
  ∧ (s ≤ e → (0 <= frame_duration df)%Q).
Proof.
  intros Hrow Hs He.
  destruct (min_time_le (start_time <$> df) s) as (lo & Hlo & Hlos).
  { rewrite <- Hs. by apply list_elem_of_fmap_2. }
  destruct (max_time_ge (end_time <$> df) e) as (hi & Hhi & Hhie).
  { rewrite <- He. by apply list_elem_of_fmap_2. }
  unfold frame_duration. rewrite Hlo, Hhi, Hs, He.
  unfold duration_seconds, total_seconds, Qle. cbn. split; [lia|]. lia.
Qed.

Lemma unique_elem {A} `{EqDecision A} (l : list A) (x : A) :
  x ∈ unique l ↔ x ∈ l.
Proof.
  induction l as [|y l IH]; [done|]. cbn.
  rewrite !elem_of_cons, list_elem_of_filter, IH.
  destruct (decide (x = y)) as [->|Hne]; [tauto|]. tauto.
Qed.

Lemma unique_NoDup {A} `{EqDecision A} (l : list A) : NoDup (unique l).
Proof.
  induction l as [|y l IH]; [apply NoDup_nil_2|]. cbn.
  apply NoDup_cons. split; [|by apply NoDup_filter].
  by intros [? _]%list_elem_of_filter.
Qed.

Lemma slice_to_sublist {A} (l : list A) (limit : Z) :
  slice_to l limit `sublist_of` l.
Proof. unfold slice_to. case_match; apply sublist_take. Qed.

Lemma slice_to_all {A} (l : list A) (limit : Z) :
  Z.of_nat (length l) ≤ limit → slice_to l limit = l.
Proof.
  intros Hlen. unfold slice_to.
  destruct (0 <=? limit) eqn:Hpos; [|lia].
  apply take_ge. lia.
Qed.

Global Instance start_le_total : Total start_le.
Proof.
  intros a b. unfold start_le.
  destruct (start_time a), (start_time b); try tauto. lia.
Qed.

Lemma trace_id_cell_Some (row : span) (t : string) :
  trace_id_cell row = Some (Some t) ↔ trace_id row = Val t.
Proof. unfold trace_id_cell. destruct (trace_id row); naive_solver. Qed.

Lemma trace_frames_elem (df : list span) (limit : Z) (ids : list (option string))
    (frames : list (string * list span)) (t : string) (rows : list span) :
  mapM trace_id_cell df = Some ids →
  trace_frames df limit = Some frames →
  (t, rows) ∈ frames
  ↔ Some t ∈ slice_to (unique ids) limit
    ∧ rows = sort_values (filter (λ row, trace_id row = Val t) df).
Proof.
  intros Hids. unfold trace_frames. rewrite Hids. cbn.
  intros Hframes%mapM_Some_1. split.
  - intros Hin. apply list_elem_of_lookup in Hin as [i Hi].
    destruct (Forall2_lookup_r _ _ _ _ _ Hframes Hi) as (id & Hid & Hf).
    destruct id as [t'|]; [|done]. cbn in Hf. injection Hf as <- <-.
    split; [|done]. by eapply list_elem_of_lookup_2.
  - intros [Hin ->]. apply list_elem_of_lookup in Hin as [i Hi].
    destruct (Forall2_lookup_l _ _ _ _ _ Hframes Hi) as (fr & Hfr & Hf).
    cbn in Hf. injection Hf as <-. by eapply list_elem_of_lookup_2.
Qed.

(** X17.  The frames built for the traces: no trace id heads two
    frames; a frame holds the rows of the frame with its trace id, each
    as often as the frame has it, sorted by start time; and when [limit]
    is at least the number of distinct trace ids, every row lies in the
    frame of its trace id. *)
Theorem trace_frames_partition (df : list span) (limit : Z)
    (ids : list (option string)) (frames : list (string * list span)) :
  mapM trace_id_cell df = Some ids →
  trace_frames df limit = Some frames →
  NoDup (frames.*1)
  ∧ (∀ t rows, (t, rows) ∈ frames →
       rows ≡ₚ filter (λ row, trace_id row = Val t) df
       ∧ Sorted start_le rows)
  ∧ (Z.of_nat (length (unique ids)) ≤ limit →
     ∀ row, row ∈ df →
       ∃ t rows, trace_id row = Val t ∧ (t, rows) ∈ frames ∧ row ∈ rows).
Proof.
  intros Hids Hframes.
  pose proof (λ t rows, trace_frames_elem df limit ids frames t rows Hids Hframes)
    as Helem.
  split; [|split].
  - assert (Some <$> frames.*1 = slice_to (unique ids) limit) as Hkeys.
    { revert Hframes. unfold trace_frames. rewrite Hids. cbn.
      intros Hf%mapM_Some_1. clear Helem.
      induction Hf as [|id fr l k Hid _ IH]; [done|].
      destruct id as [t|]; [|done]. cbn in Hid. injection Hid as <-.
      cbn. by rewrite IH. }
    apply (NoDup_fmap_1 Some). rewrite Hkeys.
    apply (sublist_NoDup _ (unique ids)); [apply unique_NoDup|apply slice_to_sublist].
  - intros t rows [_ ->]%Helem. split.
    + apply merge_sort_Permutation.
    + apply Sorted_merge_sort. apply _.
  - intros Hlimit row Hrow.
    apply mapM_Some_1 in Hids as Hcells.
    apply list_elem_of_lookup in Hrow as [i Hi].
    destruct (Forall2_lookup_l _ _ _ _ _ Hcells Hi) as (id & Hid & Hcell).
    assert (id ∈ slice_to (unique ids) limit) as Hin.
    { rewrite slice_to_all by done. apply unique_elem.
      by eapply list_elem_of_lookup_2. }
    destruct id as [t|].
    + exists t, (sort_values (filter (λ row, trace_id row = Val t) df)).
      apply trace_id_cell_Some in Hcell. split; [done|]. split.
      * by apply Helem.
      * unfold sort_values. rewrite merge_sort_Permutation.
        apply list_elem_of_filter. split; [done|].
        by eapply list_elem_of_lookup_2.
    + exfalso. revert Hframes. unfold trace_frames.
      rewrite (proj2 (mapM_Some _ _ _) Hcells). cbn.
      intros Hf%mapM_Some_1.
      apply list_elem_of_lookup in Hin as [j Hj].
      by destruct (Forall2_lookup_l _ _ _ _ _ Hf Hj) as (fr & _ & Hnone).
Qed.

Section Resolvers.
Context `{Repr} `{Numpy}.

Lemma session_suffix_textual (user_id : option value) :
  textual user_id →
  session_suffix user_id = Returns <$> (Some <$> QueryTraces.session_suffix user_id).
Proof.
  unfold textual, session_suffix, QueryTraces.session_suffix.
  destruct user_id as [v|]; [|done]. intros [Hf|[s ->]].
  - by rewrite Hf.
  - cbn. destruct (negb (String.eqb s "")); [|done]. cbn.
    by destruct (contains "session_" s).
Qed.

(** X18.  On metadata whose [user_id] entry does not resolve, and whose
    two other lookup places hold text (or nothing, or a value counting
    as false), the resolver of [reconstruct_sessions.py] returns what
    the resolver of [query_traces.py] finds in the metadata.  On a
    number other than zero in the first of its lookup places it raises,
    where the other resolver goes on with the printed form of the
    number. *)
Theorem resolvers_agree (row : span) (items : list (string * value)) (n : Z) :
  metadata row = Some (VDict items) →
  QueryTraces.session_suffix (dict_get "user_id" items) = None →
  textual (dict_get "user_api_key_end_user_id" items) →
  textual (QueryTraces.requester_user_id items) →
  extract_session_id (metadata row) = Returns (QueryTraces.resolve row)
  ∧ (n ≠ 0 →
     extract_session_id
       (Some (VDict [("user_api_key_end_user_id", VInt n)])) = Raises).
Proof.
  intros Hmeta Huser Hkey Hreq. split.
  - unfold QueryTraces.resolve. rewrite Hmeta, Huser. cbn.
    rewrite (session_suffix_textual _ Hkey).
    destruct (QueryTraces.session_suffix
                (dict_get "user_api_key_end_user_id" items)) as [sid|]; [done|].
    cbn. unfold QueryTraces.requester_user_id in *.
    destruct (dict_get "requester_metadata" items) as [[| | | | |req]|]; try done.
    rewrite (session_suffix_textual _ Hreq).
    by destruct (QueryTraces.session_suffix (dict_get "user_id" req)).
  - intros Hn. cbn. destruct (n =? 0) eqn:Hz; [lia|done].
Qed.

End Resolvers.

(** X16, on the three rows one second apart. *)
Lemma frame_duration_covers_witness :
  (0 <= frame_duration rows_near)%Q.
Proof.
  refine (proj2 (frame_duration_covers rows_near
                   (row_at "b" (Some 2000) (Some 3000)) 2000 3000 _ _ _) _).
  - right. by left.
  - reflexivity.
  - reflexivity.
  - lia.
Defined.

(** X17, on the three rows of one trace. *)
Lemma trace_frames_partition_witness :
  NoDup ([("T1", rows_near)].*1).
Proof.
  refine (proj1 (trace_frames_partition rows_near 5
                   [Some "T1"; Some "T1"; Some "T1"] [("T1", rows_near)] _ _));
    reflexivity.
Defined.

(** X18, on metadata whose session id sits under [requester_metadata]. *)
Lemma resolvers_agree_witness :
  extract_session_id (H := numpy_from_2_2)
    (Some (VDict [("requester_metadata", VDict [("user_id", VStr "session_X")])]))
  = Returns (Some "X").
Proof.
  refine (proj1 (resolvers_agree (H := sample_repr) (H0 := numpy_from_2_2)
    (row_with (Some (VDict [("requester_metadata",
                             VDict [("user_id", VStr "session_X")])])) (Val "T1"))
    [("requester_metadata", VDict [("user_id", VStr "session_X")])] 1
    _ _ _ _)).
  - reflexivity.
  - reflexivity.
  - exact I.
  - right. by eexists.
Defined.

End TraceFacts.

(** ** Further properties of the span tree *)

Module OrphanFacts.
Import Py Trace ReconstructSessions Examples Samples Aux TreeFacts.

(** X19.  A row whose [parent_id] names no row of the frame is not shown
    in the printed hierarchy, and neither is any row below it: on a
    frame with pairwise distinct span ids the run returns, and its lines
    leave out every row whose chain of parent references passes through
    such a row. *)
Theorem dangling_parent_not_shown (df : list span) (fuel : nat)
    (orphan s : span) (p : string) :
  NoDup (span_id <$> df) → (length df ≤ fuel)%nat →
  orphan ∈ df → parent_id orphan = Some p → p ∉ span_id <$> df →
  reaches df s orphan →
  ∃ lines, span_hierarchy fuel df = Some lines ∧ s ∉ spans_of lines.
Proof.
  intros Hids Hfuel Ho Hpar Hp Hreach.
  destruct (roots_forest df Hids fuel (filter (λ s, parent_id s = None) df))
    as (lines & Hrun & _ & Hrooted & _); [done..|].
  exists lines. split; [done|]. intros Hin.
  apply list_elem_of_fmap in Hin as (l & -> & Hl).
  destruct (reaches_depth df Hids _ _ _ Hreach (Hrooted _ Hl)) as (m & _ & Hm).
  destruct Hm as [o _ Hnone|o q m _ Hq Hqm]; [congruence|].
  apply Hp. rewrite Hpar in Hq. injection Hq as ->.
  apply list_elem_of_fmap_2. by eapply rooted_in.
Qed.

Lemma dangling_parent_not_shown_witness :
  ∃ lines, span_hierarchy 3 orphan_frame = Some lines
           ∧ orphan_child ∉ spans_of lines.
Proof.
  apply (dangling_parent_not_shown orphan_frame 3 orphan_row orphan_child "gone").
  - apply (bool_decide_unpack _). vm_compute. exact I.
  - simpl. lia.
  - apply (bool_decide_unpack _). vm_compute. exact I.
  - reflexivity.
  - apply (bool_decide_unpack _). vm_compute. exact I.
  - apply (reaches_step orphan_frame orphan_child orphan_row orphan_row).
    + apply (bool_decide_unpack _). vm_compute. exact I.
    + apply (bool_decide_unpack _). vm_compute. exact I.
    + reflexivity.
    + apply reaches_refl.
Defined.

End OrphanFacts.

(** ** The Anthropic helpers of [common_utils.py] *)

Module CommonUtilsFacts.
Import Py CommonUtils Samples StringFacts.

Local Arguments String.append !_ _ / : simpl nomatch.

Lemma contains_false_cons (old : string) (c : ascii) (s : string) :
  contains old (String c s) = false →
  strip_prefix old (String c s) = None ∧ contains old s = false.
Proof. cbn [contains]. by destruct (strip_prefix old (String c s)). Qed.

Lemma replace_from_absent (fuel : nat) (old new s : string) :
  contains old s = false → replace_from fuel old new s = s.
Proof.
  revert s. induction fuel as [|fuel IH]; intros s Hc; [done|].
  destruct s as [|c s]; [done|].
  apply contains_false_cons in Hc as [Hp Hc].
  cbn [replace_from]. rewrite Hp. by rewrite IH.
Qed.

Lemma replace_prefix (old new t : string) :
  old ≠ "" → contains old t = false →
  replace old new (old +:+ t) = new +:+ t.
Proof.
  intros Hold Hc. unfold replace.
  destruct old as [|a old]; [done|]. cbn [String.append String.length].
  cbn [replace_from].
  assert (strip_prefix (String a old) (String a (old +:+ t)) = Some t) as ->
    by (by apply strip_prefix_Some).
  by rewrite replace_from_absent.
Qed.

Lemma startswith_app (p t : string) : startswith p (p +:+ t) = true.
Proof.
  unfold startswith.
  by rewrite (proj2 (strip_prefix_Some p (p +:+ t) t) eq_refl).
Qed.

(** X20.  A token survives the way through the authorization header:
    with pass-through switched on, the header [Bearer <token>] (whose
    token holds no further [Bearer ]) gives back the token when the
    token starts with [sk-ant-oat], and nothing otherwise; with
    pass-through switched off the same header gives nothing. *)
Theorem oauth_token_round_trip (request_headers : gmap string string)
    (params : litellm_params) (token : string) :
  request_headers !! "authorization" = Some ("Bearer " +:+ token) →
  contains "Bearer " token = false →
  extract_oauth_from_request request_headers params
  = if oauth_pass_through params && startswith "sk-ant-oat" token
    then Some token else None.
Proof.
  intros Hauth Hc. unfold extract_oauth_from_request.
  destruct (oauth_pass_through params); [|done]. cbn [negb andb].
  unfold authorization_header. rewrite Hauth. cbn [given default].
  assert (nonempty ("Bearer " +:+ token) = true) as -> by done.
  unfold detect_oauth_token, id. rewrite startswith_app. cbn [negb].
  rewrite (replace_prefix "Bearer " "" token) by done.
  done.
Qed.

Lemma oauth_token_round_trip_witness :
  extract_oauth_from_request bearer_headers pass_through_on = Some oauth_sample.
Proof.
  apply (oauth_token_round_trip bearer_headers pass_through_on oauth_sample).
  - vm_compute. reflexivity.
  - vm_compute. reflexivity.
Defined.

(** The credentials and the fixed entries of the headers. *)
Lemma get_anthropic_headers_auth `{BetaOrder} (api_key : string)
    (anthropic_version : option string) (f : flags)
    (user : option (list string)) (oauth : option string) :
  get_anthropic_headers api_key anthropic_version f user oauth !! "authorization"
  = (if given oauth then Some ("Bearer " +:+ default "" oauth) else None)
  ∧ get_anthropic_headers api_key anthropic_version f user oauth !! "x-api-key"
    = (if given oauth then None else Some api_key).
Proof.
  unfold get_anthropic_headers.
  destruct (given oauth), (is_vertex_request f);
    try destruct (decide (beta_set _ _ _ = ∅)); by vm_compute.
Qed.

(** X21.  The headers carry exactly one credential: the OAuth token as
    [authorization: Bearer <token>] without [x-api-key], or the api key
    as [x-api-key] without [authorization]; the version, accept and
    content type entries are always there; and a Vertex request never
    gets an [anthropic-beta] entry. *)
Theorem anthropic_headers_one_credential `{BetaOrder} (api_key : string)
    (anthropic_version : option string) (f : flags)
    (user : option (list string)) (oauth : option string) :
  get_anthropic_headers api_key anthropic_version f user oauth !! "authorization"
  = (if given oauth then Some ("Bearer " +:+ default "" oauth) else None)
  ∧ get_anthropic_headers api_key anthropic_version f user oauth !! "x-api-key"
    = (if given oauth then None else Some api_key)
  ∧ get_anthropic_headers api_key anthropic_version f user oauth
      !! "anthropic-version"
    = Some (if given anthropic_version then default "" anthropic_version
            else "2023-06-01")
  ∧ get_anthropic_headers api_key anthropic_version f user oauth !! "accept"
    = Some "application/json"
  ∧ get_anthropic_headers api_key anthropic_version f user oauth !! "content-type"
    = Some "application/json"
  ∧ (if is_vertex_request f
     then get_anthropic_headers api_key anthropic_version f user oauth
            !! "anthropic-beta" = None
     else True).
Proof.
  pose proof (get_anthropic_headers_auth api_key anthropic_version f user oauth)
    as [Hauth Hkey].
  split; [done|]. split; [done|].
  unfold get_anthropic_headers.
  destruct (given oauth), (is_vertex_request f);
    try destruct (decide (beta_set _ _ _ = ∅)); repeat split; by vm_compute.
Qed.

Lemma strip_comma_None (c : ascii) (x s : string) :
  contains "," (String c x) = false → strip_prefix "," (String c s) = None.
Proof.
  intros [Hp _]%contains_false_cons. cbn [strip_prefix] in *.
  by destruct (Ascii.eqb _ c).
Qed.

Lemma split_from_piece (x cur rest : string) (fuel : nat) :
  contains "," x = false →
  (String.length x + S (String.length rest) ≤ fuel)%nat →
  split_from fuel "," cur (x +:+ String "," rest)
  = (String.rev cur +:+ x)
      :: split_from (fuel - String.length x - 1) "," "" rest.
Proof.
  revert cur fuel. induction x as [|c x IH]; intros cur fuel Hc Hfuel.
  - destruct fuel as [|fuel]; [simpl in Hfuel; lia|].
    cbn. by rewrite str_app_nil_r, Nat.sub_0_r.
  - destruct fuel as [|fuel]; [simpl in Hfuel; lia|].
    cbn [String.append split_from].
    rewrite (strip_comma_None c x) by done.
    apply contains_false_cons in Hc as [_ Hc].
    rewrite IH by (done || simpl in Hfuel; lia).
    f_equal. unfold String.rev. cbn. by rewrite !rev_app_app.
Qed.

Lemma join_cons2 (sep x y : string) (l : list string) :
  join sep (x :: y :: l) = x +:+ sep +:+ join sep (y :: l).
Proof. done. Qed.

(** Splitting at the commas what was joined with commas. *)
Lemma split_join_comma (l : list string) (fuel : nat) :
  l ≠ [] → Forall (λ x, contains "," x = false) l →
  (String.length (join "," l) ≤ fuel)%nat →
  split_from fuel "," "" (join "," l) = l.
Proof.
  intros Hne Hall. revert fuel.
  induction Hall as [|x l Hx Hall IH]; intros fuel Hfuel; [done|].
  destruct l as [|y l].
  - cbn [join]. by rewrite split_from_no_sep.
  - rewrite join_cons2 in *. rewrite str_length_app in Hfuel.
    cbn [String.append] in *. cbn [String.length] in Hfuel.
    rewrite split_from_piece by (done || lia).
    f_equal. apply IH; [done|lia].
Qed.

Lemma beta_set_no_comma (f : flags) (user : option (list string))
    (oauth : option string) (b : string) :
  Forall (λ x, contains "," x = false) (default [] user) →
  b ∈ beta_set f user oauth → contains "," b = false.
Proof.
  intros Huser. unfold beta_set, oauth_betas.
  rewrite !elem_of_union, elem_of_list_to_set.
  intros [[[[[Hb|Hb]|Hb]|Hb]|Hb]|Hb].
  - destruct (prompt_caching_set f); set_unfold; [by subst|done].
  - destruct (computer_tool_used f); set_unfold; [by subst|done].
  - destruct (file_id_used f); set_unfold; [|done]. by destruct Hb; subst.
  - destruct (mcp_server_used f); set_unfold; [by subst|done].
  - destruct (given oauth); set_unfold; [|done].
    by destruct Hb as [[[?|?]|?]|?]; subst.
  - by apply (proj1 (Forall_forall _ _) Huser).
Qed.

(** X22.  The betas come back out of the header: for a request that is
    not a Vertex request, and user betas that hold no comma, the
    [anthropic-beta] entry is missing exactly when the set of betas is
    empty, and otherwise splitting it at the commas gives each beta of
    the set once. *)
Theorem beta_header_round_trip `{BetaOrder} (api_key : string)
    (anthropic_version : option string) (f : flags)
    (user : option (list string)) (oauth : option string) :
  is_vertex_request f = false →
  Forall (λ x, contains "," x = false) (default [] user) →
  match get_anthropic_headers api_key anthropic_version f user oauth
          !! "anthropic-beta" with
  | Some v => beta_set f user oauth ≠ ∅
              ∧ split "," v ≡ₚ elements (beta_set f user oauth)
  | None => beta_set f user oauth = ∅
  end.
Proof.
  intros Hvertex Huser. unfold get_anthropic_headers. rewrite Hvertex.
  destruct (decide (beta_set f user oauth = ∅)) as [Hempty|Hne].
  - by destruct (given oauth).
  - rewrite lookup_insert_eq. split; [done|]. unfold split.
    rewrite split_join_comma; [apply beta_order_elements| | |done].
    + intros Hnil. apply Hne, leibniz_equiv, elements_empty_iff.
      apply Permutation_nil. by rewrite <- beta_order_elements, Hnil.
    + apply Forall_forall. intros b Hb.
      apply (beta_set_no_comma f user oauth); [done|].
      apply elem_of_elements. by rewrite <- beta_order_elements.
Qed.

Lemma beta_header_round_trip_witness :
  match get_anthropic_headers api_key_sample None caching_flags
          (Some ["my-beta-2025"]) None !! "anthropic-beta" with
  | Some v => beta_set caching_flags (Some ["my-beta-2025"]) None ≠ ∅
              ∧ split "," v
                ≡ₚ elements (beta_set caching_flags (Some ["my-beta-2025"]) None)
  | None => beta_set caching_flags (Some ["my-beta-2025"]) None = ∅
  end.
Proof.
  apply (beta_header_round_trip api_key_sample None caching_flags
           (Some ["my-beta-2025"]) None).
  - reflexivity.
  - apply Forall_cons. split; [vm_compute; reflexivity|apply Forall_nil_2].
Defined.

Lemma nonempty_id (key : string) : (if nonempty key then key else "") = key.
Proof.
  unfold nonempty. destruct (String.eqb_spec key "") as [->|]; done.
Qed.

Lemma validate_with_credentials `{BetaOrder} (headers : gmap string string)
    (f : flags) (params : litellm_params) (api_key : option string)
    (oauth key : option string) :
  credentials headers params api_key = (oauth, key) →
  (oauth = None → key ≠ None) →
  ∃ h, validate_environment headers f params api_key = Headers h
       ∧ h !! "authorization"
         = (if given oauth then Some ("Bearer " +:+ default "" oauth)
            else headers !! "authorization")
       ∧ h !! "x-api-key"
         = (if given oauth then headers !! "x-api-key"
            else Some (if given key then default "" key else "")).
Proof.
  intros Hcred Hsome. unfold validate_environment. rewrite Hcred.
  eexists. split.
  { destruct oauth, key; try done. by destruct Hsome. }
  destruct (get_anthropic_headers_auth (if given key then default "" key else "")
              None f (get_user_anthropic_beta_headers (headers !! "anthropic-beta"))
              oauth) as [Hauth Hkey].
  rewrite !lookup_union, Hauth, Hkey.
  destruct (given oauth); split;
    by rewrite ?(left_id None _), ?union_Some_l.
Qed.

(** X23.  Without pass-through the headers of the request never supply
    a token: the call fails with an authentication error when no api key
    is passed, and with an api key that is not an OAuth token it sends
    that key as [x-api-key] and leaves any incoming [authorization]
    entry as it is. *)
Theorem validate_without_pass_through `{BetaOrder}
    (headers : gmap string string) (f : flags) (params : litellm_params)
    (api_key : string) :
  oauth_pass_through params = false →
  startswith "sk-ant-oat" api_key = false →
  validate_environment headers f params None = AuthenticationError
  ∧ ∃ h, validate_environment headers f params (Some api_key) = Headers h
         ∧ h !! "x-api-key" = Some api_key
         ∧ h !! "authorization" = headers !! "authorization".
Proof.
  intros Hpass Hkey.
  assert (∀ k, (k = None ∨ k = Some api_key) →
               credentials headers params k = (None, k)) as Hcred.
  { intros k Hk. unfold credentials, extract_oauth_from_request.
    rewrite Hpass. cbn [andb negb].
    assert (given k && startswith "sk-ant-oat" (default "" k) = false) as ->.
    { destruct Hk as [->| ->]; [done|]. cbn. rewrite Hkey. apply andb_false_r. }
    by case_decide. }
  split.
  - unfold validate_environment. by rewrite Hcred by (by left).
  - destruct (validate_with_credentials headers f params (Some api_key)
                None (Some api_key)) as (h & Hrun & Hauth & Hk);
      [apply Hcred; by right|done|].
    exists h. split; [done|]. split; [|done].
    rewrite Hk. cbn. by rewrite nonempty_id.
Qed.

Lemma validate_without_pass_through_witness :
  validate_environment basic_headers caching_flags pass_through_off None
  = AuthenticationError
  ∧ ∃ h, validate_environment basic_headers caching_flags pass_through_off
           (Some api_key_sample) = Headers h
         ∧ h !! "x-api-key" = Some api_key_sample
         ∧ h !! "authorization" = basic_headers !! "authorization".
Proof.
  apply (validate_without_pass_through basic_headers caching_flags
           pass_through_off api_key_sample).
  - reflexivity.
  - vm_compute. reflexivity.
Defined.

Lemma startswith_nonempty (p s : string) :
  p ≠ "" → startswith p s = true → nonempty s = true.
Proof.
  unfold startswith, nonempty. intros Hp.
  destruct s; [|done]. by destruct p.
Qed.

(** X24.  An api key that is an OAuth token is sent as a bearer token
    and never as [x-api-key]: the result carries [authorization: Bearer
    <key>], and its [x-api-key] entry is whatever the incoming headers
    held under that name. *)
Theorem validate_oauth_api_key `{BetaOrder} (headers : gmap string string)
    (f : flags) (params : litellm_params) (api_key : string) :
  startswith "sk-ant-oat" api_key = true →
  ∃ h, validate_environment headers f params (Some api_key) = Headers h
       ∧ h !! "authorization" = Some ("Bearer " +:+ api_key)
       ∧ h !! "x-api-key" = headers !! "x-api-key".
Proof.
  intros Hkey.
  assert (nonempty api_key = true) as Hne
    by (by apply (startswith_nonempty "sk-ant-oat")).
  destruct (validate_with_credentials headers f params (Some api_key)
              (Some api_key) None) as (h & Hrun & Hauth & Hk).
  - unfold credentials. cbn. by rewrite Hne, Hkey.
  - done.
  - exists h. cbn in Hauth, Hk. rewrite Hne in Hauth, Hk. done.
Qed.

Lemma validate_oauth_api_key_witness :
  ∃ h, validate_environment basic_headers caching_flags pass_through_off
         (Some oauth_sample) = Headers h
       ∧ h !! "authorization" = Some ("Bearer " +:+ oauth_sample)
       ∧ h !! "x-api-key" = basic_headers !! "x-api-key".
Proof.
  apply (validate_oauth_api_key basic_headers caching_flags pass_through_off
           oauth_sample).
  vm_compute. reflexivity.
Defined.

(** X25.  Stripping the provider prefix undoes adding it: a model name
    that does not hold [anthropic/] comes back unchanged after being
    prefixed with it, and is left alone when passed as it is; a missing
    or empty model gives no name. *)
Theorem base_model_round_trip (model : string) :
  contains "anthropic/" model = false →
  get_base_model (Some ("anthropic/" +:+ model)) = Some model
  ∧ get_base_model (Some model) = (if nonempty model then Some model else None)
  ∧ get_base_model None = None.
Proof.
  intros Hc. split; [|split; [|done]].
  - unfold get_base_model. cbn [given default from_option]. unfold id.
    assert (nonempty ("anthropic/" +:+ model) = true) as -> by done.
    by rewrite (replace_prefix "anthropic/" "" model).
  - unfold get_base_model, replace. cbn [given default from_option]. unfold id.
    destruct (nonempty model); [|done].
    by rewrite replace_from_absent.
Qed.

Lemma base_model_round_trip_witness :
  get_base_model (Some "anthropic/claude-sonnet-4") = Some "claude-sonnet-4".
Proof.
  refine (proj1 (base_model_round_trip "claude-sonnet-4" _)).
  vm_compute. reflexivity.
Defined.

Lemma openai_headers_not_llm (headers : gmap string string) (k : string) :
  process_anthropic_headers headers !! ("llm_provider-" +:+ k) = headers !! k.
Proof.
  unfold process_anthropic_headers. rewrite lookup_union.
  rewrite (lookup_kmap (String.app "llm_provider-")).
  repeat case_match; rewrite ?lookup_insert_ne, ?lookup_empty by done;
    by rewrite (left_id None _).
Qed.

(** X26.  Every incoming header is handed on under its name prefixed
    with [llm_provider-], and the four Anthropic rate limit headers are
    handed on a second time under their OpenAI names; nothing else is in
    the result. *)
Theorem process_headers_entries (headers : gmap string string) :
  (∀ k, process_anthropic_headers headers !! ("llm_provider-" +:+ k)
        = headers !! k)
  ∧ process_anthropic_headers headers !! "x-ratelimit-limit-requests"
    = headers !! "anthropic-ratelimit-requests-limit"
  ∧ process_anthropic_headers headers !! "x-ratelimit-remaining-requests"
    = headers !! "anthropic-ratelimit-requests-remaining"
  ∧ process_anthropic_headers headers !! "x-ratelimit-limit-tokens"
    = headers !! "anthropic-ratelimit-tokens-limit"
  ∧ process_anthropic_headers headers !! "x-ratelimit-remaining-tokens"
    = headers !! "anthropic-ratelimit-tokens-remaining"
  ∧ (∀ name v, process_anthropic_headers headers !! name = Some v →
       (∃ k, name = "llm_provider-" +:+ k ∧ headers !! k = Some v)
       ∨ name ∈ ["x-ratelimit-limit-requests"; "x-ratelimit-remaining-requests";
                 "x-ratelimit-limit-tokens"; "x-ratelimit-remaining-tokens"]).
Proof.
  split; [apply openai_headers_not_llm|].
  assert (∀ name, (∀ k, name ≠ "llm_provider-" +:+ k) →
            (kmap (String.app "llm_provider-") headers : gmap string string)
              !! name = None) as Hllm.
  { intros name Hname. apply lookup_kmap_None; [apply _|].
    intros k Hk. by destruct (Hname k). }
  unfold process_anthropic_headers.
  repeat split.
  1-4: rewrite lookup_union, Hllm by done;
       repeat case_match; simplify_map_eq; done.
  intros name v. rewrite lookup_union_Some_raw.
  intros [Hopen|[_ Hk]].
  - right. revert Hopen.
    repeat case_match; rewrite ?lookup_insert_Some, ?lookup_empty;
      intros Hopen; repeat (destruct Hopen as [[<- _]|[_ Hopen]]);
      first [done | repeat constructor].
  - left. apply lookup_kmap_Some in Hk as (k & -> & Hk); [|apply _]. eauto.
Qed.

End CommonUtilsFacts.
